(** * yatry: the tree-shaped transport map (utils/models)

    A shallow embedding of [yatry/utils/models/__init__.py] and
    [yatry/utils/models/map.py].  Python objects live in an explicit store,
    a raised exception is a value of [exn], and a method that mutates its
    receiver returns the receiver as it is when the method returns or
    raises. *)

From Stdlib Require Import PrimFloat.
From stdpp Require Import base option list gmap sets strings.

(** ** Python values, exceptions and results *)

(** The objects found in the fields of the dataclasses: strings, members
    of the [Location] enumeration and the pair of floats of a departure
    bracket. *)
Inductive value (Location : Type) : Type :=
  | VStr (s : string)
  | VLoc (l : Location)
  | VBracket (lo hi : float).
Arguments VStr {Location} s.
Arguments VLoc {Location} l.
Arguments VBracket {Location} lo hi.

(** Exceptions.  [KeyError] and [AttributeError] are raised by Python itself
    (a [dict] subscript, an attribute access).  [KeyNotFound] and
    [DisconnectedNodes] are the error kinds of the symmetric dictionary and
    of the route finder; [InvalidTreeOperation] is the error kind the spec
    names for giving a node a second parent.  [DanglingNode] is not a Python
    exception: it is the model's answer when a node reference points outside
    the store, which no map built through its methods ever does. *)
Inductive exn (Location : Type) : Type :=
  | KeyError (key : value Location)
  | AttributeError (cls attr : string)
  | KeyNotFound
  | InvalidTreeOperation
  | DisconnectedNodes
  | DanglingNode (n : nat).
Arguments KeyError {Location} key.
Arguments AttributeError {Location} cls attr.
Arguments KeyNotFound {Location}.
Arguments InvalidTreeOperation {Location}.
Arguments DisconnectedNodes {Location}.
Arguments DanglingNode {Location} n.

Inductive result (Location A : Type) : Type :=
  | Ok (a : A)
  | Raise (e : exn Location).
Arguments Ok {Location A} a.
Arguments Raise {Location A} e.

#[export] Instance result_bind {L} : MBind (result L) := λ A B k r,
  match r with
  | Ok a => k a
  | Raise e => Raise e
  end.

(** A computation that may not terminate: [None] when the fuel given to it
    ran out, otherwise what it returned or raised. *)
Definition outcome (L A : Type) : Type := option (result L A).

#[export] Instance outcome_bind {L} : MBind (outcome L) := λ A B k c,
  match c with
  | None => None
  | Some (Raise e) => Some (Raise e)
  | Some (Ok a) => k a
  end.

(** A list comprehension whose element expression may raise: elements are
    evaluated left to right and the first exception ends the evaluation. *)
Fixpoint comprehension {L A B} (f : A → result L B) (xs : list A)
  : result L (list B) :=
  match xs with
  | [] => Ok []
  | x :: xs' => y ← f x; ys ← comprehension f xs'; Ok (y :: ys)
  end.

(** [pairwise R xs]: every element of [xs] is related to the one after
    it. *)
Fixpoint pairwise {A} (R : A → A → Prop) (xs : list A) : Prop :=
  match xs with
  | x :: (y :: _) as rest => R x y ∧ pairwise R rest
  | _ => True
  end.

(** Python's numbers, as far as [sum] needs them: the integer [0] it starts
    from and [+]. *)
Class PyNumber (N : Type) := { py_zero : N; py_add : N → N → N }.

#[export] Instance Z_PyNumber : PyNumber Z := {| py_zero := 0%Z; py_add := Z.add |}.

(** Numbers whose [+] is exact, such as [int] fares: the order of the
    additions does not matter.  Floats are not such numbers. *)
Class ExactNumber (N : Type) `{PyNumber N} : Prop := {
  py_add_comm : ∀ a b : N, py_add a b = py_add b a;
  py_add_assoc : ∀ a b c : N, py_add a (py_add b c) = py_add (py_add a b) c;
}.

#[export] Instance Z_ExactNumber : ExactNumber Z.
Proof. split; simpl; intros; lia. Qed.

(** [sum(xs)]: start from [0] and add the items from left to right. *)
Definition py_sum {N} `{PyNumber N} (xs : list N) : N :=
  fold_left py_add xs py_zero.

(** ** yatry/utils/models/__init__.py *)

Module Models.
Section Models.
Context {Location : Type}.

(** [@dataclass class Passenger]: its four fields, in declaration order.
    [src] and [dst] are annotated [object]; the map looks them up as
    locations. *)
Record Passenger := {
  name : string;
  src : Location;
  dst : Location;
  t_dep_bracket : float * float;
}.

(** The instance dictionary a [Passenger] object has after the generated
    [__init__]: one entry per declared field and no other. *)
Definition Passenger__dict__ (p : Passenger) : list (string * value Location) :=
  [ ("name"%string, VStr (name p));
    ("src"%string, VLoc (src p));
    ("dst"%string, VLoc (dst p));
    ("t_dep_bracket"%string, VBracket (fst (t_dep_bracket p)) (snd (t_dep_bracket p))) ].

Fixpoint assoc (d : list (string * value Location)) (attr : string)
  : option (value Location) :=
  match d with
  | [] => None
  | (k, v) :: d' => if String.eqb k attr then Some v else assoc d' attr
  end.

(** [passenger.attr]: the class defines no property or [__getattr__], so
    the access is a lookup in the instance dictionary and raises
    [AttributeError] when the name is missing. *)
Definition Passenger_getattr (p : Passenger) (attr : string)
  : result Location (value Location) :=
  match assoc (Passenger__dict__ p) attr with
  | Some v => Ok v
  | None => Raise (AttributeError "Passenger" attr)
  end.
End Models.
Arguments Passenger Location : clear implicits.

(** [@dataclass class Place] with its own [__hash__].  An object is its
    identity (what [id] returns) together with its field. *)
Record Place := { Place_id : nat; Place_name : string }.

(** The [__eq__] that [@dataclass] generates: both operands are [Place]
    objects here, so it compares the tuples of fields. *)
Definition Place__eq__ (p q : Place) : bool :=
  String.eqb (Place_name p) (Place_name q).

(** [def __hash__(self): return id(self)] *)
Definition Place__hash__ (p : Place) : nat := Place_id p.

(** [p is q] *)
Definition Place_is (p q : Place) : bool := Nat.eqb (Place_id p) (Place_id q).

(** A [dict] with [Place] keys, as its entries in insertion order.  A stored
    key matches a probe when the hashes agree and the two are the same
    object or compare equal. *)
Definition key_matches (k probe : Place) : bool :=
  Nat.eqb (Place__hash__ k) (Place__hash__ probe)
  && (Place_is k probe || Place__eq__ k probe).

Fixpoint dict_getitem {V} (d : list (Place * V)) (probe : Place) : option V :=
  match d with
  | [] => None
  | (k, v) :: d' => if key_matches k probe then Some v else dict_getitem d' probe
  end.

Fixpoint dict_setitem {V} (d : list (Place * V)) (probe : Place) (v : V)
  : list (Place * V) :=
  match d with
  | [] => [(probe, v)]
  | (k, w) :: d' =>
      if key_matches k probe then (k, v) :: d'
      else (k, w) :: dict_setitem d' probe v
  end.
End Models.

(** ** yatry/utils/models/tree.py *)

Module Tree.
Section Tree.
Context {L T : Type}.

(** Modelled from the spec: the class [Tree] (the spec's TreeNode), whose
    file is not part of the sources.  A node holds a value, an optional
    link to its one parent and its children in insertion order.  Nodes are
    objects compared by identity: a node is named by its index in the
    [store] of allocated nodes, and the links are such indices. *)
Record Tree := {
  value : T;
  parent : option nat;
  children : list nat;
}.

Definition store := list Tree.

(** Modelled from the spec: the constructor [Tree(value=v)] of the missing
    class; the new node has no parent and no children.  Returns the store
    with the node allocated, and the node. *)
Definition new (v : T) (h : store) : store * nat :=
  (h ++ [{| value := v; parent := None; children := [] |}], length h).

Definition set_parent (p : nat) (node : Tree) : Tree :=
  {| value := value node; parent := Some p; children := children node |}.

Definition append_child (c : nat) (node : Tree) : Tree :=
  {| value := value node; parent := parent node; children := children node ++ [c] |}.

(** Modelled from the spec: [self.add_child(child)] of the missing class.
    It sets the parent link of [child] to [self] and appends [child] to
    the children of [self].  That [child] has no parent yet is a
    precondition which, as the spec records, the source does not check:
    the link of a node that has a parent is overwritten.  Both updates go
    through the store, so [self] and [child] may be the same node. *)
Definition add_child (self child : nat) (h : store) : store :=
  alter (append_child child) self (alter (set_parent self) child h).

(** Modelled from the spec: [self.path_to_root()] of the missing class,
    the nodes from [self] up to and including the root, found by following
    parent links until none remains.  The walk has no bound of its own:
    [fuel] bounds the number of nodes visited and [None] says that it ran
    out before a node without parent was met. *)
Fixpoint path_to_root (fuel : nat) (h : store) (self : nat)
  : outcome L (list nat) :=
  match fuel with
  | O => None
  | S fuel' =>
      match h !! self with
      | None => Some (Raise (DanglingNode self))
      | Some node =>
          match parent node with
          | None => Some (Ok [self])
          | Some p =>
              match path_to_root fuel' h p with
              | Some (Ok path) => Some (Ok (self :: path))
              | other => other
              end
          end
      end
  end.

(** [ancestors h n path]: the parent links lead from [n] to a node without
    parent, and [path] lists the nodes on the way, [n] first and that node
    last.  No such path exists from a node whose links run into a cycle. *)
Inductive ancestors (h : store) : nat → list nat → Prop :=
  | ancestors_root n node :
      h !! n = Some node → parent node = None → ancestors h n [n]
  | ancestors_step n node p path :
      h !! n = Some node → parent node = Some p →
      ancestors h p path → ancestors h n (n :: path).

(** [child_of h c p]: the node [c] of the store names [p] as its parent. *)
Definition child_of (h : store) (c p : nat) : Prop :=
  ∃ node, h !! c = Some node ∧ parent node = Some p.

(** Every parent link of the store leads to a node of the store. *)
Definition closed (h : store) : Prop :=
  ∀ n node p, h !! n = Some node → parent node = Some p → is_Some (h !! p).
End Tree.
Arguments Tree T : clear implicits.
Arguments store T : clear implicits.
End Tree.

(** ** yatry/utils/models/symm_dict.py *)

Module SymmetricKeyDict.
Section SymmetricKeyDict.
Context {L K V : Type} `{Countable K}.

(** Modelled from the spec: the class [SymmetricKeyDict], whose file is
    not part of the sources: a mapping keyed by the unordered pair
    [{a, b}], here the finite set of the two keys. *)
Definition t := gmap (gset K) V.

Definition empty : t := ∅.

(** Modelled from the spec: [d[a, b] = v] of the missing class; an entry
    for the pair in either order is overwritten. *)
Definition set (a b : K) (v : V) (d : t) : t := <[ {[a; b]} := v ]> d.

(** Modelled from the spec: [d[a, b]] of the missing class; it fails with
    [KeyNotFound] when the pair was stored in neither order. *)
Definition get (a b : K) (d : t) : result L V :=
  match d !! ({[a; b]} : gset K) with
  | Some v => Ok v
  | None => Raise KeyNotFound
  end.
End SymmetricKeyDict.
Arguments t K V {_ _}.
End SymmetricKeyDict.

(** ** yatry/utils/optim/route.py *)

Module Route.
Section Route.
Context {L T : Type}.

(** Walks two root-first ancestor chains while they agree (nodes are
    compared by identity) and returns the last node they share, if any,
    with what is left of each chain below it. *)
Fixpoint diverge (lca : option nat) (xs ys : list nat)
  : option nat * list nat * list nat :=
  match xs, ys with
  | x :: xs', y :: ys' =>
      if decide (x = y) then diverge (Some x) xs' ys' else (lca, xs, ys)
  | _, _ => (lca, xs, ys)
  end.

(** Modelled from the spec: steps 1 to 3 of the function
    [find_route(start, end)], whose file is not part of the sources.  It
    takes the two paths to the root, finds the lowest common ancestor as
    the last node common to both chains scanned from their root ends, and
    returns the chain from [start] up to the ancestor followed by the chain
    from the ancestor down to [end].  It fails with [DisconnectedNodes]
    when the chains share no node. *)
Definition route_over_ancestor (fuel : nat) (h : Tree.store T) (start end_ : nat)
  : outcome L (list nat) :=
  match Tree.path_to_root (L:=L) fuel h start with
  | None => None
  | Some (Raise e) => Some (Raise e)
  | Some (Ok up) =>
      match Tree.path_to_root (L:=L) fuel h end_ with
      | None => None
      | Some (Raise e) => Some (Raise e)
      | Some (Ok down) =>
          match diverge None (reverse up) (reverse down) with
          | (Some lca, above, below) =>
              Some (Ok (reverse above ++ lca :: below))
          | (None, _, _) => Some (Raise DisconnectedNodes)
          end
      end
  end.

(** Modelled from the spec: the function [find_route(start, end)], whose
    file is not part of the sources.  When [start] and [end] are the same
    node the result is the single-element path [[start]] (step 4 of the
    spec's algorithm); otherwise it is the route over the lowest common
    ancestor. *)
Definition find_route (fuel : nat) (h : Tree.store T) (start end_ : nat)
  : outcome L (list nat) :=
  if decide (start = end_) then Some (Ok [start])
  else route_over_ancestor fuel h start end_.
End Route.
End Route.

(** ** yatry/utils/models/map.py *)

Module Map.
Import Models.
Section Map.
Context {Location : Type} `{Countable Location}.
Context {number : Type} `{PyNumber number}.

(** [class Map].  [nodes] is the store of the [Tree] objects the map has
    created; [_locations] and [_root] refer to them by identity.  [_root]
    is [None] until [__init__] assigns the attribute. *)
Record Map := {
  _roads : SymmetricKeyDict.t Location number;
  _root : option nat;
  _locations : gmap Location nat;
  nodes : Tree.store Location;
}.

(** [if location not in self._locations:] create the node and store it
    under the location. *)
Definition register_location (self : Map) (location : Location) : Map :=
  match _locations self !! location with
  | Some _ => self
  | None =>
      let '(h, node) := Tree.new location (nodes self) in
      {| _roads := _roads self;
         _root := _root self;
         _locations := <[location := node]> (_locations self);
         nodes := h |}
  end.

(** [Map(root)]: both registries start empty, the root is registered and
    [_root] is bound to [self._locations[root]]. *)
Definition __init__ (root : Location) : Map :=
  let self :=
    register_location
      {| _roads := SymmetricKeyDict.empty; _root := None;
         _locations := ∅; nodes := [] |} root in
  {| _roads := _roads self;
     _root := _locations self !! root;
     _locations := _locations self;
     nodes := nodes self |}.

(** [self._locations[location]] *)
Definition locations_getitem (self : Map) (location : Location)
  : result Location nat :=
  match _locations self !! location with
  | Some node => Ok node
  | None => Raise (KeyError (VLoc location))
  end.

(** [self._locations[loc_from].add_child(child=self._locations[loc_to])]
    and then [self._roads[loc_from, loc_to] = fare].  The receiver is
    evaluated before the argument, both before the call.  The map is
    returned as the call leaves it, together with what the call returned
    or raised. *)
Definition add_road (self : Map) (loc_from loc_to : Location) (fare : number)
  : Map * result Location () :=
  match locations_getitem self loc_from with
  | Raise e => (self, Raise e)
  | Ok parent =>
      match locations_getitem self loc_to with
      | Raise e => (self, Raise e)
      | Ok child =>
          let h := Tree.add_child parent child (nodes self) in
          ({| _roads := SymmetricKeyDict.set loc_from loc_to fare (_roads self);
              _root := _root self;
              _locations := _locations self;
              nodes := h |}, Ok ())
      end
  end.

(** [return self._roads[loc_1, loc_2]] *)
Definition get_road_fare (self : Map) (loc_1 loc_2 : Location)
  : result Location number :=
  SymmetricKeyDict.get loc_1 loc_2 (_roads self).

(** [place.value] for a node of the store. *)
Definition node_value (self : Map) (place : nat) : result Location Location :=
  match nodes self !! place with
  | Some node => Ok (Tree.value node)
  | None => Raise (DanglingNode place)
  end.

(** [_find_route]: the two lookups, the route between the nodes, and the
    values of the nodes on it. *)
Definition _find_route (fuel : nat) (self : Map) (loc_start loc_end : Location)
  : outcome Location (list Location) :=
  start ← Some (locations_getitem self loc_start);
  end_ ← Some (locations_getitem self loc_end);
  route ← Route.find_route fuel (nodes self) start end_;
  Some (comprehension (node_value self) route).

(** [zip(route[:-1], route[1:])]: the pairs the comprehension of
    [get_fare_on_route] subscripts [self._roads] with, in order. *)
Definition road_lookups (route : list Location) : list (Location * Location) :=
  zip (removelast route) (tail route).

(** [sum([self._roads[loc_1, loc_2] for loc_1, loc_2 in zip(...)])] *)
Definition get_fare_on_route (self : Map) (route : list Location)
  : result Location number :=
  fares ← comprehension
             (λ '(loc_1, loc_2), SymmetricKeyDict.get loc_1 loc_2 (_roads self))
             (road_lookups route);
  Ok (py_sum fares).

(** [make_trip]: the route, then the fare on it. *)
Definition make_trip (fuel : nat) (self : Map) (loc_start loc_end : Location)
  : outcome Location (list Location * number) :=
  route ← _find_route fuel self loc_start loc_end;
  Some (fare ← get_fare_on_route self route; Ok (route, fare)).

(** [make_trip] called with arbitrary objects, as an attribute access
    yields them.  An object that is no [Location] is a key of no
    [_locations] dictionary, so the first subscript that meets one raises
    [KeyError]. *)
Definition make_trip_of_values (fuel : nat) (self : Map)
    (loc_start loc_end : value Location)
  : outcome Location (list Location * number) :=
  match loc_start, loc_end with
  | VLoc s, VLoc e => make_trip fuel self s e
  | VLoc s, _ =>
      _ ← Some (locations_getitem self s);
      Some (Raise (KeyError loc_end))
  | _, _ => Some (Raise (KeyError loc_start))
  end.

(** [return self.make_trip(loc_start=passenger.source,
    loc_end=passenger.destination)]: the two attribute accesses are
    evaluated in this order, before the call. *)
Definition get_passenger_route_fare (fuel : nat) (self : Map)
    (passenger : Passenger Location)
  : outcome Location (list Location * number) :=
  loc_start ← Some (Passenger_getattr passenger "source");
  loc_end ← Some (Passenger_getattr passenger "destination");
  make_trip_of_values fuel self loc_start loc_end.

(** The error kind the spec calls [UnknownLocation]: the [KeyError] that a
    subscript of [self._locations] raises for a location that is no key. *)
Definition UnknownLocation (location : Location) : exn Location :=
  KeyError (VLoc location).

Definition registered (self : Map) (location : Location) : Prop :=
  is_Some (_locations self !! location).

(** [location] is registered as a tree node: the registry maps it to a
    node of the store, and that node holds it. *)
Definition registered_node (self : Map) (location : Location) : Prop :=
  ∃ n t, _locations self !! location = Some n
         ∧ nodes self !! n = Some t ∧ Tree.value t = location.

(** [location] is one end of a road stored in [self._roads]. *)
Definition road_endpoint (self : Map) (location : Location) : Prop :=
  ∃ ends : gset Location, is_Some (_roads self !! ends) ∧ location ∈ ends.

(** The tree has an edge from the node of [loc_from] down to the node of
    [loc_to]: the second node names the first as its parent, or the first
    lists the second among its children. *)
Definition tree_edge (self : Map) (loc_from loc_to : Location) : Prop :=
  ∃ np nc tp tc,
    nodes self !! np = Some tp ∧ nodes self !! nc = Some tc
    ∧ Tree.value tp = loc_from ∧ Tree.value tc = loc_to
    ∧ (Tree.parent tc = Some np ∨ nc ∈ Tree.children tp).

(** What the methods keep true of a map: the registry and the store name
    each other, every link stays inside the store and has its fare, and
    the ends of every road are registered. *)
Record consistent (self : Map) : Prop := {
  consistent_locations : ∀ l n,
    _locations self !! l = Some n →
    ∃ t, nodes self !! n = Some t ∧ Tree.value t = l;
  consistent_nodes : ∀ n t,
    nodes self !! n = Some t → _locations self !! Tree.value t = Some n;
  consistent_parent : ∀ c tc p,
    nodes self !! c = Some tc → Tree.parent tc = Some p →
    ∃ tp, nodes self !! p = Some tp
          ∧ is_Some (_roads self !! ({[Tree.value tp; Tree.value tc]} : gset Location));
  consistent_children : ∀ p tp c,
    nodes self !! p = Some tp → c ∈ Tree.children tp →
    ∃ tc, nodes self !! c = Some tc
          ∧ is_Some (_roads self !! ({[Tree.value tp; Tree.value tc]} : gset Location));
  consistent_roads : ∀ ends l,
    is_Some (_roads self !! ends) → l ∈ ends → is_Some (_locations self !! l);
}.

(** The maps a program can hold: built by the constructor and changed by
    [register_location] and [add_road] only, whether [add_road] returned
    or raised. *)
Inductive reachable : Map → Prop :=
  | reachable_init root : reachable (__init__ root)
  | reachable_register self location :
      reachable self → reachable (register_location self location)
  | reachable_add_road self loc_from loc_to fare :
      reachable self → reachable (fst (add_road self loc_from loc_to fare)).

(** The maps built as the docstring of [add_road] asks: every road goes to
    a location whose node has no parent yet and is not met on the way from
    the node of [loc_from] to the root. *)
Inductive tree_built : Map → Prop :=
  | tree_built_init root : tree_built (__init__ root)
  | tree_built_register self location :
      tree_built self → tree_built (register_location self location)
  | tree_built_add_road self loc_from loc_to fare parent child node path :
      tree_built self →
      _locations self !! loc_from = Some parent →
      _locations self !! loc_to = Some child →
      nodes self !! child = Some node → Tree.parent node = None →
      Tree.ancestors (nodes self) parent path → child ∉ path →
      tree_built (fst (add_road self loc_from loc_to fare)).

(** Every stored fare belongs to an edge of the tree: its pair of
    locations is held by a node and one of the children of that node. *)
Definition roads_have_edges (self : Map) : Prop :=
  ∀ ends : gset Location, is_Some (_roads self !! ends) →
    ∃ p c tp tc,
      nodes self !! p = Some tp ∧ nodes self !! c = Some tc
      ∧ c ∈ Tree.children tp
      ∧ ends = {[Tree.value tp; Tree.value tc]}.

(** [@property root]: [return self._root].  The attribute is bound by
    [__init__]; reading it earlier raises [AttributeError]. *)
Definition root (self : Map) : result Location nat :=
  match _root self with
  | Some node => Ok node
  | None => Raise (AttributeError "Map" "_root")
  end.

(** The list that [get_fare_on_route] hands to [sum]. *)
Definition route_fares (self : Map) (route : list Location)
  : result Location (list number) :=
  comprehension
    (λ '(loc_1, loc_2), SymmetricKeyDict.get loc_1 loc_2 (_roads self))
    (road_lookups route).

(** [later self self']: [self'] is [self] after further calls of
    [register_location] and [add_road]. *)
Inductive later (self : Map) : Map → Prop :=
  | later_now : later self self
  | later_register self' location :
      later self self' → later self (register_location self' location)
  | later_add_road self' loc_from loc_to fare :
      later self self' → later self (fst (add_road self' loc_from loc_to fare)).
End Map.
Arguments Map Location {_ _} number.
End Map.

(** ** Example maps *)

Module Examples.
Import Map.

(** The map of the spec's examples, with CityCenter, Suburb1 and Suburb2
    as the locations 0, 1 and 2 and integer fares:
    [add_road(CityCenter, Suburb1, 10)], [add_road(Suburb1, Suburb2, 5)]. *)
Definition registered_map : Map nat Z :=
  register_location (register_location (__init__ 0) 1) 2.

Definition one_road_map : Map nat Z := fst (add_road registered_map 0 1 10%Z).

Definition city_map : Map nat Z := fst (add_road one_road_map 1 2 5%Z).

(** [Map(0)] after [add_road(0, 0, 1)]: the root is its own parent. *)
Definition looping_map : Map nat Z := fst (add_road (__init__ 0) 0 0 1%Z).

Definition traveller : Models.Passenger nat :=
  {| Models.name := "Asha"; Models.src := 0; Models.dst := 2;
     Models.t_dep_bracket := (8%float, 9%float) |}.
End Examples.

(** * Properties *)

(** ** Place: value equality with identity hashing *)

Section PlaceFacts.
Import Models.

Lemma Place__eq__same_name (p q : Place) :
  Place_name p = Place_name q → Place__eq__ p q = true.
Proof. unfold Place__eq__. intros ->. apply String.eqb_refl. Qed.

Lemma key_matches_other_object (p q : Place) :
  Place_id p ≠ Place_id q → key_matches p q = false.
Proof.
  intros Hid. unfold key_matches, Place__hash__.
  apply Nat.eqb_neq in Hid. by rewrite Hid.
Qed.

Lemma key_matches_same_object (p : Place) : key_matches p p = true.
Proof.
  unfold key_matches, Place_is, Place__hash__.
  by rewrite Nat.eqb_refl.
Qed.

(** Two objects that compare equal are two keys of a dictionary as soon
    as their identities differ. *)
Lemma dict_two_objects {V} (p q : Place) (v w : V) :
  Place_id p ≠ Place_id q →
  dict_setitem (dict_setitem [] p v) q w = [(p, v); (q, w)]
  ∧ dict_getitem [(p, v); (q, w)] p = Some v
  ∧ dict_getitem [(p, v); (q, w)] q = Some w.
Proof.
  intros Hid. cbn.
  rewrite (key_matches_other_object p q Hid).
  by rewrite !key_matches_same_object.
Qed.

(** C8: there are two distinct [Place] objects with the same name that
    compare equal with [==] while their hashes differ, so that a
    dictionary holds them as two keys, each with its own value. *)
Theorem Place_equal_with_different_hash :
  ∃ p1 p2 : Place,
    Place_is p1 p2 = false
    ∧ Place_name p1 = Place_name p2
    ∧ Place__eq__ p1 p2 = true
    ∧ Place__hash__ p1 ≠ Place__hash__ p2
    ∧ ∀ (V : Type) (v1 v2 : V),
        dict_setitem (dict_setitem [] p1 v1) p2 v2 = [(p1, v1); (p2, v2)]
        ∧ dict_getitem (dict_setitem (dict_setitem [] p1 v1) p2 v2) p1 = Some v1
        ∧ dict_getitem (dict_setitem (dict_setitem [] p1 v1) p2 v2) p2 = Some v2.
Proof.
  set (p1 := {| Place_id := 1; Place_name := "Suburb1" |}).
  set (p2 := {| Place_id := 2; Place_name := "Suburb1" |}).
  assert (Place_id p1 ≠ Place_id p2) as Hid by (simpl; lia).
  exists p1, p2. split_and!; [done..|].
  intros V v1 v2.
  destruct (dict_two_objects p1 p2 v1 v2 Hid) as (Hset & Hp & Hq).
  by rewrite Hset.
Qed.
End PlaceFacts.

(** ** Tree and route finder *)

Section TreeFacts.
Context {L T : Type}.
Implicit Types (h : Tree.store T) (n self child : nat) (path : list nat).

(** A node of the store after [add_child], read from the node before. *)
Lemma add_child_lookup h self child n :
  Tree.add_child self child h !! n
  = (λ t, {| Tree.value := Tree.value t;
             Tree.parent := if decide (n = child) then Some self
                            else Tree.parent t;
             Tree.children := if decide (n = self)
                              then Tree.children t ++ [child]
                              else Tree.children t |}) <$> h !! n.
Proof.
  unfold Tree.add_child, Tree.store in *.
  destruct (decide (n = self)) as [Hs|Hs], (decide (n = child)) as [Hc|Hc].
  - subst self child. rewrite !list_lookup_alter_eq.
    by destruct (h !! n) as [[]|].
  - subst self. rewrite list_lookup_alter_eq, list_lookup_alter_ne by done.
    by destruct (h !! n) as [[]|].
  - subst child. rewrite list_lookup_alter_ne, list_lookup_alter_eq by done.
    by destruct (h !! n) as [[]|].
  - rewrite !list_lookup_alter_ne by done.
    by destruct (h !! n) as [[]|].
Qed.

Lemma add_child_length h self child :
  length (Tree.add_child self child h) = length h.
Proof. unfold Tree.add_child, Tree.store in *. by rewrite !length_alter. Qed.

Lemma ancestors_length h n path : Tree.ancestors h n path → 0 < length path.
Proof. destruct 1; simpl; lia. Qed.

Lemma add_child_lookup_Some h self child n t' :
  Tree.add_child self child h !! n = Some t' →
  ∃ t, h !! n = Some t
       ∧ Tree.value t' = Tree.value t
       ∧ Tree.parent t' = (if decide (n = child) then Some self else Tree.parent t)
       ∧ Tree.children t' = (if decide (n = self) then Tree.children t ++ [child]
                             else Tree.children t).
Proof.
  rewrite add_child_lookup. intros (t & Ht & ->)%fmap_Some. by exists t.
Qed.

Lemma add_child_lookup_value h self child n t :
  h !! n = Some t →
  ∃ t', Tree.add_child self child h !! n = Some t'
        ∧ Tree.value t' = Tree.value t.
Proof. intros Ht. rewrite add_child_lookup, Ht. simpl. eauto. Qed.

(** A path to the root that does not pass through [child] is still one
    after [child] was attached somewhere. *)
Lemma ancestors_add_child_off_path h self child n path :
  Tree.ancestors h n path → child ∉ path →
  Tree.ancestors (Tree.add_child self child h) n path.
Proof.
  induction 1 as [n node Hn Hp | n node p path Hn Hp Hanc IH]; intros Hoff.
  - apply not_elem_of_cons in Hoff as [Hne _].
    destruct (add_child_lookup_value h self child n node Hn) as (t' & Ht' & _).
    destruct (add_child_lookup_Some _ _ _ _ _ Ht') as (t & Ht & _ & Hparent & _).
    rewrite decide_False in Hparent by congruence.
    eapply Tree.ancestors_root; [done|]. congruence.
  - apply not_elem_of_cons in Hoff as [Hne Hoff].
    destruct (add_child_lookup_value h self child n node Hn) as (t' & Ht' & _).
    destruct (add_child_lookup_Some _ _ _ _ _ Ht') as (t & Ht & _ & Hparent & _).
    rewrite decide_False in Hparent by congruence.
    eapply Tree.ancestors_step; [done| |by apply IH]. congruence.
Qed.

(** Attaching a node without parent below a node whose path to the root
    avoids it leaves every node with a path to the root. *)
Lemma ancestors_add_child h self child node up n path :
  h !! child = Some node → Tree.parent node = None →
  Tree.ancestors h self up → child ∉ up →
  Tree.ancestors h n path →
  ∃ path', Tree.ancestors (Tree.add_child self child h) n path'.
Proof.
  intros Hchild Hnone Hup Hoff.
  induction 1 as [n t Hn Hp | n t p path Hn Hp Hanc [path' IH]].
  - destruct (add_child_lookup_value h self child n t Hn) as (t' & Ht' & _).
    destruct (add_child_lookup_Some _ _ _ _ _ Ht') as (t0 & Ht0 & _ & Hparent & _).
    destruct (decide (n = child)) as [->|Hne].
    + exists (child :: up). eapply Tree.ancestors_step; [done..|].
      by apply ancestors_add_child_off_path.
    + exists [n]. eapply Tree.ancestors_root; [done|]. congruence.
  - destruct (add_child_lookup_value h self child n t Hn) as (t' & Ht' & _).
    destruct (add_child_lookup_Some _ _ _ _ _ Ht') as (t0 & Ht0 & _ & Hparent & _).
    rewrite decide_False in Hparent by congruence.
    exists (n :: path'). eapply Tree.ancestors_step; [done| |done]. congruence.
Qed.

Lemma ancestors_new h (v : T) n path :
  Tree.ancestors h n path → Tree.ancestors (fst (Tree.new v h)) n path.
Proof.
  unfold Tree.new, Tree.store in *. simpl.
  induction 1 as [n t Hn Hp | n t p path Hn Hp Hanc IH].
  - eapply Tree.ancestors_root; [by apply lookup_app_l_Some|done].
  - eapply Tree.ancestors_step; [by apply lookup_app_l_Some|done..].
Qed.

(** With as much fuel as the path is long, [path_to_root] returns it. *)
Lemma path_to_root_ancestors h n path :
  Tree.ancestors h n path →
  ∀ fuel, length path ≤ fuel →
  Tree.path_to_root (L:=L) fuel h n = Some (Ok path).
Proof.
  induction 1 as [n node Hn Hp | n node p path Hn Hp Hanc IH];
    intros [|fuel] Hfuel; simpl in *; try lia.
  - by rewrite Hn, Hp.
  - rewrite Hn, Hp, IH by lia. done.
Qed.

(** More fuel never changes what [path_to_root] has returned or raised. *)
Lemma path_to_root_mono fuel fuel' h n (r : result L (list nat)) :
  Tree.path_to_root fuel h n = Some r → fuel ≤ fuel' →
  Tree.path_to_root fuel' h n = Some r.
Proof.
  revert fuel' n r. induction fuel as [|fuel IH]; intros fuel' n r; [done|].
  destruct fuel' as [|fuel']; [lia|]. simpl.
  destruct (h !! n) as [node|]; [|done].
  destruct (Tree.parent node) as [p|]; [|done].
  destruct (Tree.path_to_root fuel h p) as [r'|] eqn:Hp; [|by destruct r].
  intros Hr Hfuel. rewrite (IH fuel' p r' Hp) by lia. done.
Qed.

Lemma route_over_ancestor_mono fuel fuel' h n n' (r : result L (list nat)) :
  Route.route_over_ancestor fuel h n n' = Some r → fuel ≤ fuel' →
  Route.route_over_ancestor fuel' h n n' = Some r.
Proof.
  unfold Route.route_over_ancestor. intros Hr Hfuel.
  destruct (Tree.path_to_root fuel h n) as [r1|] eqn:H1; [|done].
  rewrite (path_to_root_mono _ fuel' _ _ _ H1 Hfuel).
  destruct r1 as [up|e1]; [|done].
  destruct (Tree.path_to_root fuel h n') as [r2|] eqn:H2; [|done].
  by rewrite (path_to_root_mono _ fuel' _ _ _ H2 Hfuel).
Qed.

Lemma find_route_mono fuel fuel' h n n' (r : result L (list nat)) :
  Route.find_route fuel h n n' = Some r → fuel ≤ fuel' →
  Route.find_route fuel' h n n' = Some r.
Proof.
  unfold Route.find_route. case_decide; [done|].
  apply route_over_ancestor_mono.
Qed.

(** Two equal chains agree to their end: nothing is left of either and
    the common ancestor is their last node. *)
Lemma diverge_same (xs : list nat) (lca : option nat) :
  Route.diverge lca xs xs = (from_option Some lca (last xs), [], []).
Proof.
  revert lca. induction xs as [|x xs IH]; intros lca; simpl; [done|].
  rewrite decide_True by done. rewrite IH.
  destruct xs as [|y xs]; [done|].
  rewrite last_cons_cons.
  destruct (last_is_Some (y :: xs)) as [_ [z ->]]; done.
Qed.

(** The route over the ancestor from a node to itself is the node alone. *)
Lemma route_over_ancestor_same h n path fuel :
  Tree.ancestors h n path → length path ≤ fuel →
  Route.route_over_ancestor (L:=L) fuel h n n = Some (Ok [n]).
Proof.
  intros Hanc Hfuel. unfold Route.route_over_ancestor.
  rewrite (path_to_root_ancestors h n path Hanc fuel Hfuel).
  rewrite diverge_same, last_reverse.
  by destruct Hanc.
Qed.

(** The route from a node to itself is the node alone. *)
Lemma find_route_self fuel h n :
  Route.find_route (L:=L) fuel h n n = Some (Ok [n]).
Proof. unfold Route.find_route. by rewrite decide_True. Qed.

Lemma find_route_same h n path fuel :
  Tree.ancestors h n path → length path ≤ fuel →
  Route.find_route (L:=L) fuel h n n = Some (Ok [n]).
Proof. intros _ _. apply find_route_self. Qed.

(** [path_to_root] never raises anything but the model's own
    [DanglingNode]. *)
Lemma path_to_root_raises fuel h n e :
  Tree.path_to_root (L:=L) fuel h n = Some (Raise e) → ∃ k, e = DanglingNode k.
Proof.
  revert n. induction fuel as [|fuel IH]; intros n; simpl; [done|].
  destruct (h !! n) as [node|]; [|intros [= <-]; eauto].
  destruct (Tree.parent node) as [p|]; [|done].
  destruct (Tree.path_to_root fuel h p) as [[path|e']|] eqn:Hp; [done| |done].
  intros [= <-]. eauto.
Qed.

Lemma find_route_raises fuel h n n' e :
  Route.find_route (L:=L) fuel h n n' = Some (Raise e) →
  e = DisconnectedNodes ∨ ∃ k, e = DanglingNode k.
Proof.
  unfold Route.find_route. case_decide; [done|].
  unfold Route.route_over_ancestor.
  destruct (Tree.path_to_root fuel h n) as [[up|e1]|] eqn:H1; [| |done].
  - destruct (Tree.path_to_root fuel h n') as [[down|e2]|] eqn:H2; [| |done].
    + destruct (Route.diverge None (reverse up) (reverse down)) as [[[lca|] ?] ?];
        [done|]. intros [= <-]. by left.
    + intros [= <-]. right. by eapply path_to_root_raises.
  - intros [= <-]. right. by eapply path_to_root_raises.
Qed.
End TreeFacts.

(** ** Map *)

Section MapFacts.
Import Models Map.
Context {Location : Type} `{Countable Location}.
Context {number : Type} `{PyNumber number}.
Implicit Types (self : Map Location number) (passenger : Passenger Location).
Implicit Types (s e a b location : Location) (fare : number) (fuel : nat).

(** [Passenger] has the fields [src] and [dst]; [source] is none of its
    attributes. *)
Lemma Passenger_has_no_source passenger :
  Passenger_getattr passenger "source"
  = Raise (AttributeError "Passenger" "source").
Proof. reflexivity. Qed.

Lemma Passenger_has_src passenger :
  Passenger_getattr passenger "src" = Ok (VLoc (src passenger)).
Proof. reflexivity. Qed.

(** C1, as the code behaves: [get_passenger_route_fare] never reaches
    [make_trip]; on every map and for every passenger the access
    [passenger.source] raises [AttributeError], so the result differs from
    that of [make_trip] on the passenger's [src] and [dst] whenever
    [make_trip] returns a trip. *)
Theorem get_passenger_route_fare_raises fuel self passenger :
  get_passenger_route_fare fuel self passenger
  = Some (Raise (AttributeError "Passenger" "source"))
  ∧ ∀ trip,
      make_trip fuel self (src passenger) (dst passenger) = Some (Ok trip) →
      get_passenger_route_fare fuel self passenger
      ≠ make_trip fuel self (src passenger) (dst passenger).
Proof.
  assert (get_passenger_route_fare fuel self passenger
          = Some (Raise (AttributeError "Passenger" "source"))) as Hraise.
  { unfold get_passenger_route_fare. by rewrite Passenger_has_no_source. }
  split; [done|]. intros trip Htrip. by rewrite Hraise, Htrip.
Qed.

(** C10: on the empty route [get_fare_on_route] subscripts [self._roads]
    with no pair and returns [0]. *)
Theorem get_fare_on_empty_route self :
  road_lookups (Location:=Location) [] = []
  ∧ get_fare_on_route self [] = Ok py_zero.
Proof. split; reflexivity. Qed.

Lemma get_fare_on_single_route self location :
  road_lookups [location] = [] ∧ get_fare_on_route self [location] = Ok py_zero.
Proof. split; reflexivity. Qed.

Lemma locations_getitem_Some self location n :
  _locations self !! location = Some n → locations_getitem self location = Ok n.
Proof. unfold locations_getitem. by intros ->. Qed.

Lemma locations_getitem_None self location :
  _locations self !! location = None →
  locations_getitem self location = Raise (UnknownLocation location).
Proof. unfold locations_getitem. by intros ->. Qed.

Lemma node_values_raise self (route : list nat) err :
  comprehension (node_value self) route = Raise err → ∃ k, err = DanglingNode k.
Proof.
  induction route as [|n route IH]; simpl; [done|].
  destruct (node_value self n) as [v|err1] eqn:Hv; simpl.
  - destruct (comprehension (node_value self) route) as [vs|err']; simpl; [done|].
    intros [= <-]. by apply IH.
  - intros [= <-]. unfold node_value in Hv.
    destruct (nodes self !! n); simplify_eq. eauto.
Qed.

(** More fuel never changes what [_find_route] has returned or raised. *)
Lemma _find_route_mono fuel fuel' self s e (r : result Location (list Location)) :
  _find_route fuel self s e = Some r → fuel ≤ fuel' →
  _find_route fuel' self s e = Some r.
Proof.
  unfold _find_route. intros Hr Hfuel.
  destruct (locations_getitem self s) as [ns|]; [|done].
  destruct (locations_getitem self e) as [ne|]; [|done]. simpl in *.
  destruct (Route.find_route fuel (nodes self) ns ne) as [r'|] eqn:Hroute; [|done].
  by rewrite (find_route_mono _ fuel' _ _ _ _ Hroute Hfuel).
Qed.

(** C3: [_find_route] fails with [UnknownLocation] exactly when one of the
    two locations is not registered, and the location it names is the first
    of the two that is missing. *)
Theorem find_route_UnknownLocation fuel self s e :
  (_locations self !! s = None →
   _find_route fuel self s e = Some (Raise (UnknownLocation s)))
  ∧ (registered self s → _locations self !! e = None →
     _find_route fuel self s e = Some (Raise (UnknownLocation e)))
  ∧ (registered self s → registered self e →
     ∀ key, _find_route fuel self s e ≠ Some (Raise (KeyError key))).
Proof.
  unfold _find_route. split; [|split].
  - intros Hs. by rewrite (locations_getitem_None _ _ Hs).
  - intros [ns Hs] He.
    by rewrite (locations_getitem_Some _ _ _ Hs), (locations_getitem_None _ _ He).
  - intros [ns Hs] [ne He] key.
    rewrite (locations_getitem_Some _ _ _ Hs), (locations_getitem_Some _ _ _ He).
    simpl.
    destruct (Route.find_route fuel (nodes self) ns ne) as [[route|err]|] eqn:Hr;
      simpl; [| |done].
    + intros [= Hraise]. by apply node_values_raise in Hraise as [k ?].
    + intros [= ->]. by apply find_route_raises in Hr as [?|[k ?]].
Qed.

Lemma add_road_unknown_from self a b fare :
  _locations self !! a = None →
  add_road self a b fare = (self, Raise (UnknownLocation a)).
Proof. intros Ha. unfold add_road. by rewrite (locations_getitem_None _ _ Ha). Qed.

Lemma add_road_unknown_to self a b fare na :
  _locations self !! a = Some na → _locations self !! b = None →
  add_road self a b fare = (self, Raise (UnknownLocation b)).
Proof.
  intros Ha Hb. unfold add_road.
  by rewrite (locations_getitem_Some _ _ _ Ha), (locations_getitem_None _ _ Hb).
Qed.

(** C9: when one of the two locations is not registered, [add_road] raises
    from the failing subscript and returns the map as it received it: no
    node, no registry entry and no fare has changed. *)
Theorem add_road_unregistered self a b fare :
  _locations self !! a = None ∨ _locations self !! b = None →
  ∃ location, (location = a ∨ location = b)
    ∧ add_road self a b fare = (self, Raise (UnknownLocation location)).
Proof.
  intros Hab.
  destruct (_locations self !! a) as [na|] eqn:Ha.
  - destruct Hab as [?|Hb]; [done|]. exists b. split; [by right|].
    by eapply add_road_unknown_to.
  - exists a. split; [by left|]. by apply add_road_unknown_from.
Qed.

Lemma register_location_registered self location :
  ∃ n, _locations (register_location self location) !! location = Some n.
Proof.
  unfold register_location.
  destruct (_locations self !! location) as [n|] eqn:Hl; [eauto|].
  simpl. rewrite lookup_insert_eq. eauto.
Qed.

(** A second [register_location(L)] returns the map unchanged, whatever
    the map; the location is then bound to one node, and the two calls
    together have created at most one node. *)
Lemma register_location_idempotent self location :
  register_location (register_location self location) location
  = register_location self location
  ∧ (∃ n, ∀ n',
       _locations (register_location (register_location self location) location)
         !! location = Some n' ↔ n' = n)
  ∧ length (nodes (register_location (register_location self location) location))
    ≤ S (length (nodes self)).
Proof.
  destruct (register_location_registered self location) as [n Hn].
  assert (register_location (register_location self location) location
          = register_location self location) as Htwice.
  { unfold register_location at 1. by rewrite Hn. }
  rewrite Htwice. split; [done|]. split.
  - exists n. intros n'. rewrite Hn. naive_solver.
  - unfold register_location.
    destruct (_locations self !! location); simpl; [lia|].
    rewrite length_app. simpl. lia.
Qed.

Lemma add_road_registered self a b fare na nb :
  _locations self !! a = Some na → _locations self !! b = Some nb →
  add_road self a b fare
  = ({| _roads := SymmetricKeyDict.set a b fare (_roads self);
        _root := _root self;
        _locations := _locations self;
        nodes := Tree.add_child na nb (nodes self) |}, Ok ()).
Proof.
  intros Ha Hb. unfold add_road.
  by rewrite (locations_getitem_Some _ _ _ Ha), (locations_getitem_Some _ _ _ Hb).
Qed.

Lemma symmetric_key (a b : Location) : ({[a; b]} : gset Location) = {[b; a]}.
Proof. apply (comm_L (∪)). Qed.

Lemma get_set_same (d : SymmetricKeyDict.t Location number) a b fare :
  SymmetricKeyDict.get (L:=Location) a b (SymmetricKeyDict.set a b fare d) = Ok fare
  ∧ SymmetricKeyDict.get (L:=Location) b a (SymmetricKeyDict.set a b fare d) = Ok fare.
Proof.
  unfold SymmetricKeyDict.get, SymmetricKeyDict.set, SymmetricKeyDict.t in *.
  rewrite (symmetric_key b a). by rewrite lookup_insert_eq.
Qed.

(** C2: for registered [A] and [B], [add_road(A, B, f)] returns normally and
    afterwards [get_road_fare] returns [f] for the two locations in either
    order. *)
Theorem add_road_fare_symmetric self a b fare :
  registered self a → registered self b →
  snd (add_road self a b fare) = Ok ()
  ∧ get_road_fare (fst (add_road self a b fare)) a b = Ok fare
  ∧ get_road_fare (fst (add_road self a b fare)) b a = Ok fare.
Proof.
  intros [na Ha] [nb Hb].
  rewrite (add_road_registered _ _ _ _ _ _ Ha Hb). simpl.
  split; [done|]. unfold get_road_fare. simpl. apply get_set_same.
Qed.
(** *** The methods keep the map consistent *)

Lemma consistent_register_location self location :
  consistent self → consistent (register_location self location).
Proof.
  intros [Hloc Hnodes Hpar Hchi Hroads]. unfold register_location.
  destruct (_locations self !! location) as [n0|] eqn:Hfresh; [done|].
  unfold Tree.new, Tree.store in *. split; simpl.
  - intros l n. rewrite lookup_insert. case_decide as Hl.
    + intros [= <-]. subst l. eexists. split; [apply list_lookup_middle|]; done.
    + intros (t & Ht & Hv)%Hloc. exists t. split; [|done].
      by apply lookup_app_l_Some.
  - intros n t [Hold|[Hn Hnew]]%lookup_app_Some.
    + rewrite lookup_insert_ne; [by apply Hnodes|].
      intros Heq. apply Hnodes in Hold. rewrite <- Heq in Hold. congruence.
    + destruct (n - length (nodes self)) as [|k] eqn:Hk; simplify_eq/=.
      rewrite lookup_insert_eq. f_equal. lia.
  - intros c tc p [Hold|[Hn Hnew]]%lookup_app_Some Hp.
    + destruct (Hpar _ _ _ Hold Hp) as (tp & Htp & Hfare).
      exists tp. split; [by apply lookup_app_l_Some|done].
    + destruct (c - length (nodes self)); simplify_eq/=.
  - intros p tp c [Hold|[Hn Hnew]]%lookup_app_Some Hc.
    + destruct (Hchi _ _ _ Hold Hc) as (tc & Htc & Hfare).
      exists tc. split; [by apply lookup_app_l_Some|done].
    + destruct (p - length (nodes self)); simplify_eq/=.
      by apply elem_of_nil in Hc.
  - intros ends l Hends Hl. rewrite lookup_insert. case_decide; [done|].
    by eapply Hroads.
Qed.

Lemma consistent_init (root : Location) :
  consistent (__init__ (number:=number) root).
Proof.
  unfold __init__.
  set (blank := {| _roads := SymmetricKeyDict.empty; _root := None;
                   _locations := ∅; nodes := [] |} : Map Location number).
  assert (consistent blank) as Hblank.
  { split; simpl; intros *; try by rewrite ?lookup_nil, ?lookup_empty.
    unfold SymmetricKeyDict.empty. rewrite lookup_empty. by intros [? ?]. }
  by destruct (consistent_register_location blank root Hblank).
Qed.

Lemma consistent_add_road self a b fare :
  consistent self → consistent (fst (add_road self a b fare)).
Proof.
  intros Hself. destruct (Hself) as [Hloc Hnodes Hpar Hchi Hroads].
  destruct (_locations self !! a) as [na|] eqn:Ha; cycle 1.
  { by rewrite (add_road_unknown_from _ _ _ _ Ha). }
  destruct (_locations self !! b) as [nb|] eqn:Hb; cycle 1.
  { by rewrite (add_road_unknown_to _ _ _ _ _ Ha Hb). }
  rewrite (add_road_registered _ _ _ _ _ _ Ha Hb). simpl.
  destruct (Hloc _ _ Ha) as (ta & Hta & Hva).
  destruct (Hloc _ _ Hb) as (tb & Htb & Hvb).
  assert (∀ ends : gset Location,
            is_Some (_roads self !! ends) →
            is_Some (SymmetricKeyDict.set a b fare (_roads self) !! ends)) as Hkeep.
  { intros ends Hends. unfold SymmetricKeyDict.set, SymmetricKeyDict.t in *.
    rewrite lookup_insert. by case_decide. }
  assert (is_Some (SymmetricKeyDict.set a b fare (_roads self)
                     !! ({[a; b]} : gset Location))) as Hnew.
  { unfold SymmetricKeyDict.set, SymmetricKeyDict.t in *.
    by rewrite lookup_insert_eq. }
  split; simpl.
  - intros l n (t & Ht & Hv)%Hloc.
    destruct (add_child_lookup_value (nodes self) na nb n t Ht) as (t' & Ht' & Hv').
    exists t'. split; [done|congruence].
  - intros n t' (t & Ht & Hv & _)%add_child_lookup_Some.
    rewrite Hv. by apply Hnodes.
  - intros c tc' p (tc & Htc & Hv & Hparent & _)%add_child_lookup_Some Hp.
    rewrite Hp in Hparent. case_decide as Hc.
    + injection Hparent as ->. subst c.
      assert (tc = tb) as -> by congruence.
      destruct (add_child_lookup_value (nodes self) na nb na ta Hta) as (t' & Ht' & Hv').
      exists t'. split; [done|]. by rewrite Hv', Hv, Hva, Hvb.
    + destruct (Hpar _ _ _ Htc (eq_sym Hparent)) as (tp & Htp & Hfare).
      destruct (add_child_lookup_value (nodes self) na nb p tp Htp) as (t' & Ht' & Hv').
      exists t'. split; [done|]. rewrite Hv', Hv. by apply Hkeep.
  - intros p tp' c (tp & Htp & Hv & _ & Hchildren)%add_child_lookup_Some Hc.
    rewrite Hchildren in Hc.
    assert (c ∈ Tree.children tp ∨ (p = na ∧ c = nb)) as [Hold|[-> ->]].
    { case_decide; [|by left].
      apply elem_of_app in Hc as [?|?%list_elem_of_singleton]; auto. }
    + destruct (Hchi _ _ _ Htp Hold) as (tc & Htc & Hfare).
      destruct (add_child_lookup_value (nodes self) na nb c tc Htc) as (t' & Ht' & Hv').
      exists t'. split; [done|]. rewrite Hv', Hv. by apply Hkeep.
    + assert (tp = ta) as -> by congruence.
      destruct (add_child_lookup_value (nodes self) na nb nb tb Htb) as (t' & Ht' & Hv').
      exists t'. split; [done|]. by rewrite Hv', Hv, Hva, Hvb.
  - intros ends l Hends Hl.
    unfold SymmetricKeyDict.set, SymmetricKeyDict.t in *.
    rewrite lookup_insert in Hends. case_decide as Hkey; [|by eapply Hroads].
    subst ends.
    apply elem_of_union in Hl as [Hl%elem_of_singleton|Hl%elem_of_singleton];
      subst l; eauto.
Qed.

(** In a consistent map the node a location is registered under is the
    only node of the store that holds the location. *)
Lemma consistent_one_node self location n :
  consistent self → _locations self !! location = Some n →
  ∀ k t, nodes self !! k = Some t → (Tree.value t = location ↔ k = n).
Proof.
  intros [Hloc Hnodes _ _ _] Hn k t Ht. split.
  - intros <-. apply Hnodes in Ht. congruence.
  - intros ->. destruct (Hloc _ _ Hn) as (t' & Ht' & Hv). congruence.
Qed.

Lemma reachable_consistent self : reachable self → consistent self.
Proof.
  induction 1 as [root | self location _ IH | self a b fare _ IH].
  - apply consistent_init.
  - by apply consistent_register_location.
  - by apply consistent_add_road.
Qed.

(** C6: on a map built through its methods, after [register_location(L)]
    a second call returns the map unchanged, and the map then has exactly
    one tree node for [L]: [L] is registered under a node of the store that
    holds [L], no other node of the store holds [L], and the two calls
    together have created at most one node. *)
Theorem register_location_twice self location :
  reachable self →
  register_location (register_location self location) location
  = register_location self location
  ∧ (∃ n t,
       _locations (register_location (register_location self location) location)
         !! location = Some n
       ∧ nodes (register_location (register_location self location) location)
           !! n = Some t
       ∧ Tree.value t = location
       ∧ ∀ k t',
           nodes (register_location (register_location self location) location)
             !! k = Some t' →
           Tree.value t' = location → k = n)
  ∧ length (nodes (register_location (register_location self location) location))
    ≤ S (length (nodes self)).
Proof.
  intros Hreach.
  destruct (register_location_idempotent self location) as (Htwice & _ & Hlen).
  split; [done|]. split; [|done]. rewrite Htwice.
  pose proof (reachable_consistent _ (reachable_register _ location Hreach))
    as Hcons.
  destruct (register_location_registered self location) as [n Hn].
  destruct (consistent_locations _ Hcons _ _ Hn) as (t & Ht & Hv).
  exists n, t. split_and!; [done..|].
  intros k t' Hk Hv'. by apply (consistent_one_node _ _ _ Hcons Hn k t' Hk).
Qed.

(** C7: in every map built by the constructor, [register_location] and
    [add_road], both ends of every stored road are registered, and every
    edge of the tree has a fare in the road registry. *)
Theorem reachable_roads_and_edges self :
  reachable self →
  (∀ location, road_endpoint self location → registered_node self location)
  ∧ (∀ loc_from loc_to,
       tree_edge self loc_from loc_to →
       ∃ fare, get_road_fare self loc_from loc_to = Ok fare).
Proof.
  intros [Hloc Hnodes Hpar Hchi Hroads]%reachable_consistent. split.
  - intros location (ends & Hends & Hl).
    destruct (Hroads _ _ Hends Hl) as [n Hn].
    destruct (Hloc _ _ Hn) as (t & Ht & Hv). by exists n, t.
  - intros loc_from loc_to (np & nc & tp & tc & Htp & Htc & <- & <- & Hedge).
    unfold get_road_fare, SymmetricKeyDict.get.
    assert (is_Some (_roads self !! ({[Tree.value tp; Tree.value tc]} : gset Location)))
      as [fare Hfare]; [|rewrite Hfare; eauto].
    destruct Hedge as [Hp|Hc].
    + destruct (Hpar _ _ _ Htc Hp) as (tp' & Htp' & Hfare). by simplify_eq.
    + destruct (Hchi _ _ _ Htp Hc) as (tc' & Htc' & Hfare). by simplify_eq.
Qed.
(** *** Maps built as trees *)

Lemma tree_built_reachable self : tree_built self → reachable self.
Proof. induction 1; by constructor. Qed.

(** In a map built as a tree every node has a path to the root. *)
Lemma tree_built_ancestors self :
  tree_built self →
  ∀ n t, nodes self !! n = Some t → ∃ path, Tree.ancestors (nodes self) n path.
Proof.
  induction 1 as [root | self location _ IH
                 | self a b fare na nb tb up _ IH Ha Hb Htb Hnone Hup Hoff].
  - intros n t Hn. exists [n]. eapply Tree.ancestors_root; [done|].
    unfold __init__, register_location in Hn. simpl in Hn.
    rewrite lookup_empty in Hn. simpl in Hn.
    destruct n; by simplify_eq/=.
  - unfold register_location.
    destruct (_locations self !! location); [done|].
    pose proof (ancestors_new (nodes self) location) as Hnew.
    unfold Tree.new, Tree.store in *. simpl in *.
    intros n t [Hold|[Hn Hlast]]%lookup_app_Some.
    + destruct (IH _ _ Hold) as [path Hpath]. eauto.
    + exists [n]. eapply Tree.ancestors_root.
      * replace n with (length (nodes self) + 0) by
          (destruct (n - length (nodes self)) eqn:?; simplify_eq/=; lia).
        by apply list_lookup_middle.
      * done.
  - rewrite (add_road_registered _ _ _ _ _ _ Ha Hb). simpl.
    intros n t' (t & Ht & _)%add_child_lookup_Some.
    destruct (IH _ _ Ht) as [path Hpath].
    by eapply ancestors_add_child.
Qed.

(** X14: in a map built as the docstring of [add_road] asks, route finding
    from a registered location to itself returns the location alone, given
    enough fuel. *)
Corollary tree_built_find_route_to_itself self location :
  tree_built self → registered self location →
  ∃ fuel0, ∀ fuel, fuel0 ≤ fuel →
    _find_route fuel self location location = Some (Ok [location]).
Proof.
  intros Hbuilt [n Hn].
  pose proof (tree_built_reachable _ Hbuilt) as Hreach.
  destruct (consistent_locations _ (reachable_consistent _ Hreach) _ _ Hn)
    as (t & Ht & Hv).
  destruct (tree_built_ancestors _ Hbuilt _ _ Ht) as [path Hpath].
  exists (length path). intros fuel Hfuel.
  unfold _find_route. rewrite (locations_getitem_Some _ _ _ Hn). simpl.
  rewrite (find_route_same (nodes self) n path fuel Hpath Hfuel). simpl.
  unfold node_value. by rewrite Ht, Hv.
Qed.

(** C4, as the code behaves: a road into a location whose node already
    has a parent is not refused.  For registered [C] and [B], whatever
    parent the node of [B] has, [add_road(C, B, f)] returns normally, the
    parent link of that node is now the node of [C], and the fare is
    stored. *)
Theorem add_road_into_connected_location self c b fare nc nb tb p :
  _locations self !! c = Some nc → _locations self !! b = Some nb →
  nodes self !! nb = Some tb → Tree.parent tb = Some p →
  snd (add_road self c b fare) = Ok ()
  ∧ (∃ tb', nodes (fst (add_road self c b fare)) !! nb = Some tb'
            ∧ Tree.parent tb' = Some nc)
  ∧ get_road_fare (fst (add_road self c b fare)) c b = Ok fare.
Proof.
  intros Hc Hb Htb _.
  rewrite (add_road_registered _ _ _ _ _ _ Hc Hb). simpl.
  split; [done|]. split.
  - rewrite add_child_lookup, Htb. simpl. eexists. split; [done|]. simpl.
    by rewrite decide_True.
  - unfold get_road_fare. simpl. apply get_set_same.
Qed.

(** C5: in every map built through its methods, route finding from a
    registered location to itself returns the route that holds this
    location alone, and the fare on such a route is [0]. *)
Theorem find_route_to_itself self location fuel :
  reachable self → registered self location →
  _find_route fuel self location location = Some (Ok [location])
  ∧ get_fare_on_route self [location] = Ok py_zero.
Proof.
  intros Hreach [n Hn]. split; [|reflexivity].
  destruct (consistent_locations _ (reachable_consistent _ Hreach) _ _ Hn)
    as (t & Ht & Hv).
  unfold _find_route. rewrite (locations_getitem_Some _ _ _ Hn). simpl.
  rewrite find_route_self. simpl.
  unfold node_value. by rewrite Ht, Hv.
Qed.
End MapFacts.

(** ** The example maps *)

Section ExampleFacts.
Import Models Map Examples.

Local Ltac evaluate := vm_compute; reflexivity.
Local Ltac off_path := rewrite !not_elem_of_cons; by auto using not_elem_of_nil.

Lemma registered_map_reachable : reachable registered_map.
Proof. apply reachable_register, reachable_register, reachable_init. Qed.

Lemma one_road_map_reachable : reachable one_road_map.
Proof. apply reachable_add_road, registered_map_reachable. Qed.

Lemma city_map_reachable : reachable city_map.
Proof. apply reachable_add_road, one_road_map_reachable. Qed.

Lemma looping_map_reachable : reachable looping_map.
Proof. apply reachable_add_road, reachable_init. Qed.

Lemma city_map_tree_built : tree_built city_map.
Proof.
  eapply (tree_built_add_road one_road_map 1 2 5%Z 1 2 _ [1; 0]);
    [|evaluate..| |off_path].
  - eapply (tree_built_add_road registered_map 0 1 10%Z 0 1 _ [0]);
      [|evaluate..| |off_path].
    + apply tree_built_register, tree_built_register, tree_built_init.
    + eapply Tree.ancestors_root; evaluate.
  - eapply Tree.ancestors_step; [evaluate..|].
    eapply Tree.ancestors_root; evaluate.
Qed.

(** The spec's example trip, there and back. *)
Example city_map_trip :
  make_trip 3 city_map 0 2 = Some (Ok ([0; 1; 2], 15%Z))
  ∧ make_trip 3 city_map 2 0 = Some (Ok ([2; 1; 0], 15%Z)).
Proof. split; vm_compute; reflexivity. Qed.

(** The failing input of C1: [make_trip] plans the trip of the traveller
    from [src] to [dst], while [get_passenger_route_fare] raises. *)
Example traveller_trip :
  make_trip 3 city_map (src traveller) (dst traveller)
  = Some (Ok ([0; 1; 2], 15%Z))
  ∧ get_passenger_route_fare 3 city_map traveller
    = Some (Raise (AttributeError "Passenger" "source")).
Proof. split; vm_compute; reflexivity. Qed.

Lemma add_road_fare_symmetric_witness :
  registered registered_map 0 ∧ registered registered_map 1
  ∧ snd (add_road registered_map 0 1 10%Z) = Ok ()
  ∧ get_road_fare (fst (add_road registered_map 0 1 10%Z)) 0 1 = Ok 10%Z
  ∧ get_road_fare (fst (add_road registered_map 0 1 10%Z)) 1 0 = Ok 10%Z.
Proof.
  assert (registered registered_map 0) as H0 by (exists 0; vm_compute; reflexivity).
  assert (registered registered_map 1) as H1 by (exists 1; vm_compute; reflexivity).
  split; [exact H0|]. split; [exact H1|].
  exact (add_road_fare_symmetric registered_map 0 1 10%Z H0 H1).
Defined.

Lemma add_road_unregistered_witness :
  (_locations (__init__ (number:=Z) 0) !! 0 = None
   ∨ _locations (__init__ (number:=Z) 0) !! 1 = None)
  ∧ ∃ location, (location = 0 ∨ location = 1)
      ∧ add_road (__init__ 0) 0 1 5%Z
        = (__init__ 0, Raise (UnknownLocation location)).
Proof.
  assert (_locations (__init__ (number:=Z) 0) !! 0 = None
          ∨ _locations (__init__ (number:=Z) 0) !! 1 = None) as Hab
    by (right; vm_compute; reflexivity).
  split; [exact Hab|].
  exact (add_road_unregistered (__init__ 0) 0 1 5%Z Hab).
Defined.

Lemma reachable_roads_and_edges_witness :
  reachable city_map
  ∧ (∀ location,
       road_endpoint city_map location → registered_node city_map location)
  ∧ (∀ loc_from loc_to,
       tree_edge city_map loc_from loc_to →
       ∃ fare, get_road_fare city_map loc_from loc_to = Ok fare).
Proof.
  split; [exact city_map_reachable|].
  exact (reachable_roads_and_edges city_map city_map_reachable).
Defined.

(** C4, refuted as stated: Suburb1 has the parent CityCenter in
    [one_road_map], and a second road into it, from Suburb2, is accepted. *)
Lemma add_road_second_parent_accepted :
  registered one_road_map 0 ∧ registered one_road_map 1
  ∧ registered one_road_map 2
  ∧ (∃ tb, nodes one_road_map !! 1 = Some tb ∧ Tree.parent tb = Some 0)
  ∧ snd (add_road one_road_map 2 1 7%Z) = Ok ()
  ∧ snd (add_road one_road_map 2 1 7%Z) ≠ Raise InvalidTreeOperation.
Proof.
  split_and!.
  - exists 0. vm_compute. reflexivity.
  - exists 1. vm_compute. reflexivity.
  - exists 2. vm_compute. reflexivity.
  - eexists. split; vm_compute; reflexivity.
  - vm_compute. reflexivity.
  - vm_compute. discriminate.
Qed.

(** The store after that second road: Suburb1 is listed as a child of
    both CityCenter and Suburb2, and names Suburb2 as its parent. *)
Example second_parent_store :
  nodes (fst (add_road one_road_map 2 1 7%Z))
  = [ {| Tree.value := 0; Tree.parent := None; Tree.children := [1] |};
      {| Tree.value := 1; Tree.parent := Some 2; Tree.children := [] |};
      {| Tree.value := 2; Tree.parent := None; Tree.children := [1] |} ].
Proof. vm_compute. reflexivity. Qed.

Lemma add_road_into_connected_location_witness :
  _locations one_road_map !! 2 = Some 2
  ∧ _locations one_road_map !! 1 = Some 1
  ∧ nodes one_road_map !! 1
    = Some {| Tree.value := 1; Tree.parent := Some 0; Tree.children := [] |}
  ∧ snd (add_road one_road_map 2 1 7%Z) = Ok ()
  ∧ (∃ tb', nodes (fst (add_road one_road_map 2 1 7%Z)) !! 1 = Some tb'
            ∧ Tree.parent tb' = Some 2)
  ∧ get_road_fare (fst (add_road one_road_map 2 1 7%Z)) 2 1 = Ok 7%Z.
Proof.
  assert (_locations one_road_map !! 2 = Some 2) as Hc by (vm_compute; reflexivity).
  assert (_locations one_road_map !! 1 = Some 1) as Hb by (vm_compute; reflexivity).
  assert (nodes one_road_map !! 1
          = Some {| Tree.value := 1; Tree.parent := Some 0; Tree.children := [] |})
    as Htb by (vm_compute; reflexivity).
  split; [exact Hc|]. split; [exact Hb|]. split; [exact Htb|].
  exact (add_road_into_connected_location one_road_map 2 1 7%Z 2 1 _ 0
           Hc Hb Htb eq_refl).
Defined.

Lemma path_to_root_looping fuel :
  Tree.path_to_root (L:=nat) fuel (nodes looping_map) 0 = None.
Proof.
  induction fuel as [|fuel IH]; [done|].
  change (nodes looping_map)
    with [{| Tree.value := 0; Tree.parent := Some 0; Tree.children := [0] |}] in *.
  simpl. by rewrite IH.
Qed.

(** Route finding from a location to itself walks no parent link: it
    returns on [looping_map] too, with no fuel at all. *)
Example looping_map_route_to_itself :
  _find_route 0 looping_map 0 0 = Some (Ok [0]).
Proof. evaluate. Qed.

Lemma register_location_twice_witness :
  reachable city_map
  ∧ register_location (register_location city_map 3) 3
    = register_location city_map 3
  ∧ (∃ n t,
       _locations (register_location (register_location city_map 3) 3) !! 3
       = Some n
       ∧ nodes (register_location (register_location city_map 3) 3) !! n = Some t
       ∧ Tree.value t = 3
       ∧ ∀ k t',
           nodes (register_location (register_location city_map 3) 3) !! k
           = Some t' →
           Tree.value t' = 3 → k = n)
  ∧ length (nodes (register_location (register_location city_map 3) 3))
    ≤ S (length (nodes city_map)).
Proof.
  split; [exact city_map_reachable|].
  exact (register_location_twice city_map 3 city_map_reachable).
Defined.

Lemma find_route_to_itself_witness :
  reachable city_map
  ∧ registered city_map 2
  ∧ _find_route 3 city_map 2 2 = Some (Ok [2])
  ∧ get_fare_on_route city_map [2] = Ok 0%Z.
Proof.
  assert (registered city_map 2) as Hn by (exists 2; evaluate).
  split; [exact city_map_reachable|]. split; [exact Hn|].
  exact (find_route_to_itself city_map 2 3 city_map_reachable Hn).
Defined.
End ExampleFacts.

(** * Further properties *)

(** ** Lists, comprehensions and consecutive pairs *)

Section ListFacts.
Context {L A B : Type}.
Implicit Types (R : A → A → Prop) (xs ys : list A).

(** A comprehension returns a list exactly when its element expression
    returns for every element, and the list holds the values in order. *)
Lemma comprehension_Ok (f : A → result L B) xs (zs : list B) :
  comprehension f xs = Ok zs ↔ Forall2 (λ x z, f x = Ok z) xs zs.
Proof.
  revert zs. induction xs as [|x xs IH]; intros zs; simpl.
  - split; [intros [= <-]; constructor | by inversion 1].
  - destruct (f x) as [z|err] eqn:Hx; simpl; cycle 1.
    { split; [done|]. inversion 1; congruence. }
    destruct (comprehension f xs) as [zs'|err] eqn:Hxs; simpl.
    + split.
      * intros [= <-]. constructor; [done|]. by apply IH.
      * inversion 1 as [|? z' ? zs'' Hz Hzs]; subst.
        apply IH in Hzs. congruence.
    + split; [done|]. inversion 1 as [|? z' ? zs'' Hz Hzs]; subst.
      by apply IH in Hzs.
Qed.

(** A comprehension raises what its element expression raises first. *)
Lemma comprehension_Raise (f : A → result L B) xs err :
  comprehension f xs = Raise err → ∃ x, x ∈ xs ∧ f x = Raise err.
Proof.
  induction xs as [|x xs IH]; simpl; [done|].
  destruct (f x) as [z|err'] eqn:Hx; simpl.
  - destruct (comprehension f xs) as [zs|err'']; simpl; [done|].
    intros [= <-]. destruct IH as (x' & Hin & Hx'); [done|].
    exists x'. split; [by right|done].
  - intros [= <-]. exists x. split; [by left|done].
Qed.

Lemma pairwise_impl R (S : A → A → Prop) xs :
  (∀ x y, R x y → S x y) → pairwise R xs → pairwise S xs.
Proof.
  intros HRS. induction xs as [|x [|y xs] IH]; simpl; [done..|].
  intros [Hxy Hrest]. split; [by apply HRS|by apply IH].
Qed.

Lemma pairwise_tail R x xs : pairwise R (x :: xs) → pairwise R xs.
Proof. destruct xs; simpl; [done|]. by intros [_ ?]. Qed.

Lemma pairwise_app_l R xs ys : pairwise R (xs ++ ys) → pairwise R xs.
Proof.
  induction xs as [|x [|y xs] IH]; simpl; [done..|].
  intros [Hxy Hrest]. split; [done|]. by apply IH.
Qed.

Lemma pairwise_app_r R xs ys : pairwise R (xs ++ ys) → pairwise R ys.
Proof.
  induction xs as [|x xs IH]; [done|].
  intros Hall. apply IH. by eapply pairwise_tail.
Qed.

(** Two chains that share their joint make one chain. *)
Lemma pairwise_glue R xs y ys :
  pairwise R (xs ++ [y]) → pairwise R (y :: ys) → pairwise R (xs ++ y :: ys).
Proof.
  intros Hl Hr. induction xs as [|x [|x' xs] IH]; simpl in *; [done|..].
  - destruct Hl as [Hxy _]. by split.
  - destruct Hl as [Hxx' Hl]. split; [done|]. by apply IH.
Qed.

Lemma pairwise_snoc R xs x y :
  pairwise R (xs ++ [x]) → R x y → pairwise R ((xs ++ [x]) ++ [y]).
Proof.
  intros Hxs Hxy. rewrite <- app_assoc. simpl.
  apply pairwise_glue; [done|]. by split.
Qed.

(** A chain read backwards is a chain of the converse relation. *)
Lemma pairwise_reverse R xs : pairwise R xs → pairwise (flip R) (reverse xs).
Proof.
  induction xs as [|a xs IH]; [done|].
  destruct xs as [|b xs]; [done|].
  intros [Hab Hrest]. specialize (IH Hrest).
  rewrite reverse_cons. rewrite reverse_cons in IH |- *.
  by apply pairwise_snoc.
Qed.

Lemma pairwise_lookup R xs :
  pairwise R xs ↔
  ∀ i x y, xs !! i = Some x → xs !! S i = Some y → R x y.
Proof.
  induction xs as [|a xs IH].
  { split; [by intros _ i x y|done]. }
  destruct xs as [|b xs].
  { split; [by intros _ [|i] x y|done]. }
  simpl pairwise in *. rewrite IH. split.
  - intros [Hab Hrest] [|i] x y Hx Hy; simplify_eq/=; [done|].
    by eapply Hrest.
  - intros Hall. split; [by apply (Hall 0)|].
    intros i x y Hx Hy. by apply (Hall (S i)).
Qed.
End ListFacts.

(** ** The shape of a route *)

Section RouteFacts.
Context {L T : Type}.
Implicit Types (h : Tree.store T) (n : nat) (path route : list nat).

Lemma path_to_root_Ok fuel h n path :
  Tree.path_to_root (L:=L) fuel h n = Some (Ok path) → Tree.ancestors h n path.
Proof.
  revert n path. induction fuel as [|fuel IH]; intros n path; simpl; [done|].
  destruct (h !! n) as [node|] eqn:Hn; [|done].
  destruct (Tree.parent node) as [p|] eqn:Hp.
  - destruct (Tree.path_to_root fuel h p) as [[up|err]|] eqn:Hup; [|done..].
    intros [= <-]. eapply Tree.ancestors_step; [done..|]. by apply IH.
  - intros [= <-]. by eapply Tree.ancestors_root.
Qed.

Lemma ancestors_head h n path :
  Tree.ancestors h n path → ∃ rest, path = n :: rest.
Proof. destruct 1; eauto. Qed.

(** Along a path to the root every node names the next one as its parent. *)
Lemma ancestors_chain h n path :
  Tree.ancestors h n path → pairwise (Tree.child_of h) path.
Proof.
  induction 1 as [n node Hn Hp | n node p path Hn Hp Hanc IH]; [done|].
  destruct (ancestors_head _ _ _ Hanc) as [rest ->].
  split; [by exists node|done].
Qed.

Lemma ancestors_in_store h n path :
  Tree.ancestors h n path → Forall (λ k, is_Some (h !! k)) path.
Proof. induction 1; constructor; eauto. Qed.

(** What [diverge] returns: the two chains are a common part followed by
    the two remainders, and the ancestor is the last node of the common
    part. *)
Lemma diverge_split (lca : option nat) (xs ys : list nat) l above below :
  Route.diverge lca xs ys = (l, above, below) →
  ∃ common, xs = common ++ above ∧ ys = common ++ below
            ∧ l = from_option Some lca (last common).
Proof.
  revert lca ys. induction xs as [|x xs IH]; intros lca ys; simpl.
  { intros [= <- <- <-]. by exists []. }
  destruct ys as [|y ys]; [intros [= <- <- <-]; by exists []|].
  case_decide as Hxy; [|intros [= <- <- <-]; by exists []].
  subst y. intros (common & -> & -> & ->)%IH.
  exists (x :: common). split_and!; [done..|].
  destruct common as [|c common]; [done|].
  rewrite last_cons_cons.
  by destruct (last_is_Some (c :: common)) as [_ [z ->]].
Qed.

Lemma diverge_sym (lca : option nat) (xs ys : list nat) l above below :
  Route.diverge lca xs ys = (l, above, below) →
  Route.diverge lca ys xs = (l, below, above).
Proof.
  revert lca ys. induction xs as [|x xs IH]; intros lca ys; simpl.
  { intros [= <- <- <-]. by destruct ys. }
  destruct ys as [|y ys]; [by intros [= <- <- <-]|]. simpl.
  case_decide as Hxy.
  - subst y. rewrite decide_True by done. apply IH.
  - rewrite decide_False by done. by intros [= <- <- <-].
Qed.

(** A route over the ancestor climbs from [start] to a common ancestor
    along the path of [start] to the root and descends to [end] along the
    path of [end]. *)
Lemma route_over_ancestor_Ok fuel h start end_ route :
  Route.route_over_ancestor (L:=L) fuel h start end_ = Some (Ok route) →
  ∃ above below rest lca,
    route = reverse above ++ lca :: below
    ∧ Tree.ancestors h start (reverse above ++ lca :: rest)
    ∧ Tree.ancestors h end_ (reverse below ++ lca :: rest).
Proof.
  unfold Route.route_over_ancestor.
  destruct (Tree.path_to_root fuel h start) as [[up|?]|] eqn:Hup; [|done..].
  destruct (Tree.path_to_root fuel h end_) as [[down|?]|] eqn:Hdown; [|done..].
  destruct (Route.diverge None (reverse up) (reverse down))
    as [[[lca|] above] below] eqn:Hdiv; [|done].
  intros [= <-].
  apply diverge_split in Hdiv as (common & Hu & Hd & Hlca). simpl in Hlca.
  destruct (last common) as [z|] eqn:Hlast; [|done].
  injection Hlca as Hz. subst z.
  apply last_Some in Hlast as [common' ->].
  exists above, below, (reverse common'), lca. split; [done|].
  apply path_to_root_Ok in Hup, Hdown.
  apply (f_equal reverse) in Hu, Hd.
  rewrite reverse_involutive, reverse_app, reverse_snoc in Hu, Hd.
  by subst up down.
Qed.

(** A route that [find_route] returns is the one node that [start] and
    [end] both are, or a route over their common ancestor. *)
Lemma find_route_Ok fuel h start end_ route :
  Route.find_route (L:=L) fuel h start end_ = Some (Ok route) →
  (start = end_ ∧ route = [start])
  ∨ ∃ above below rest lca,
      route = reverse above ++ lca :: below
      ∧ Tree.ancestors h start (reverse above ++ lca :: rest)
      ∧ Tree.ancestors h end_ (reverse below ++ lca :: rest).
Proof.
  unfold Route.find_route. case_decide as Hse.
  - intros [= <-]. by left.
  - intros Hroute. right. by eapply route_over_ancestor_Ok.
Qed.

Lemma find_route_start fuel h start end_ route :
  Route.find_route (L:=L) fuel h start end_ = Some (Ok route) →
  head route = Some start ∧ last route = Some end_.
Proof.
  intros [[<- ->]|(above & below & rest & lca & -> & Hup & Hdown)]%find_route_Ok;
    [done|].
  apply ancestors_head in Hup as [up Hup], Hdown as [down Hdown]. split.
  - destruct (reverse above); simplify_eq/=; done.
  - rewrite last_app_cons, <- head_reverse, reverse_cons.
    destruct (reverse below); simplify_eq/=; done.
Qed.

(** Consecutive nodes of a route are parent and child, one way or the
    other, and all of them are nodes of the store when [start] is one. *)
Lemma find_route_adjacent fuel h start end_ route :
  is_Some (h !! start) →
  Route.find_route (L:=L) fuel h start end_ = Some (Ok route) →
  pairwise (λ x y, Tree.child_of h x y ∨ Tree.child_of h y x) route
  ∧ Forall (λ k, is_Some (h !! k)) route.
Proof.
  intros Hstart
    [[<- ->]|(above & below & rest & lca & -> & Hup & Hdown)]%find_route_Ok.
  { split; [done|]. by constructor. }
  split.
  - apply ancestors_chain in Hup, Hdown.
    apply pairwise_glue.
    + eapply pairwise_impl; [by left|].
      apply (pairwise_app_l _ _ rest). by rewrite <- app_assoc.
    + eapply pairwise_impl; [intros x y Hxy; right; exact Hxy|].
      replace (lca :: below) with (reverse (reverse below ++ [lca]))
        by (by rewrite reverse_snoc, reverse_involutive).
      apply pairwise_reverse.
      apply (pairwise_app_l _ _ rest). by rewrite <- app_assoc.
  - apply ancestors_in_store in Hup, Hdown.
    rewrite Forall_app, Forall_cons in Hup, Hdown |- *.
    destruct Hup as (Habove & Hlca & _), Hdown as (Hbelow & _ & _).
    split_and!; [done..|]. by apply Forall_reverse in Hbelow;
      rewrite reverse_involutive in Hbelow.
Qed.

(** The route back is the route read backwards. *)
Lemma find_route_sym fuel h start end_ route :
  Route.find_route (L:=L) fuel h start end_ = Some (Ok route) →
  Route.find_route (L:=L) fuel h end_ start = Some (Ok (reverse route)).
Proof.
  unfold Route.find_route. case_decide as Hse.
  { subst end_. rewrite decide_True by done. by intros [= <-]. }
  rewrite decide_False by congruence.
  unfold Route.route_over_ancestor.
  destruct (Tree.path_to_root fuel h start) as [[up|?]|] eqn:Hup; [|done..].
  destruct (Tree.path_to_root fuel h end_) as [[down|?]|] eqn:Hdown; [|done..].
  destruct (Route.diverge None (reverse up) (reverse down))
    as [[[lca|] above] below] eqn:Hdiv; [|done].
  intros [= <-]. rewrite (diverge_sym _ _ _ _ _ _ Hdiv).
  by rewrite reverse_app, reverse_cons, reverse_involutive, <- app_assoc.
Qed.
End RouteFacts.

(** ** Fares on a route *)

Section FareFacts.
Import Models Map.
Context {Location : Type} `{Countable Location}.
Context {number : Type} `{PyNumber number}.
Implicit Types (self : Map Location number) (route : list Location).
Implicit Types (a b s e location : Location) (fare : number) (fuel : nat).

Lemma road_lookups_cons_cons a b route :
  road_lookups (a :: b :: route) = (a, b) :: road_lookups (b :: route).
Proof. reflexivity. Qed.

Lemma road_lookups_lookup route i a b :
  road_lookups route !! i = Some (a, b)
  ↔ route !! i = Some a ∧ route !! S i = Some b.
Proof.
  revert i. induction route as [|x route IH]; intros i; [by split; [|intros []]|].
  destruct route as [|y route].
  { split; [done|]. by intros [_ ?]. }
  rewrite road_lookups_cons_cons. destruct i as [|i]; simpl.
  - split; [by intros [= -> ->]|]. intros [[= ->] [= ->]]. done.
  - apply IH.
Qed.

(** X1: the pairs for which [get_fare_on_route] looks up a fare are the
    pairs of consecutive locations of the route, in the order of the route,
    one pair less than the route has locations. *)
Theorem road_lookups_consecutive route :
  (∀ i a b, road_lookups route !! i = Some (a, b)
            ↔ route !! i = Some a ∧ route !! S i = Some b)
  ∧ length (road_lookups route) = length route - 1.
Proof.
  split; [intros; apply road_lookups_lookup|].
  induction route as [|x route IH]; [done|].
  destruct route as [|y route]; [done|].
  rewrite road_lookups_cons_cons. simpl in *. rewrite IH. lia.
Qed.

Lemma get_fare_on_route_fares self route :
  get_fare_on_route self route = fares ← route_fares self route; Ok (py_sum fares).
Proof. reflexivity. Qed.

Lemma route_fares_priced self route :
  (∃ fares, route_fares self route = Ok fares)
  ↔ pairwise (λ a b, ∃ fare, get_road_fare self a b = Ok fare) route.
Proof.
  induction route as [|x route IH].
  { split; [done|]. intros _. by exists []. }
  destruct route as [|y route].
  { split; [done|]. intros _. by exists []. }
  simpl pairwise. rewrite <- IH. clear IH.
  unfold route_fares. rewrite road_lookups_cons_cons. simpl.
  fold (get_road_fare self x y).
  destruct (get_road_fare self x y) as [fare|err]; simpl.
  - destruct (comprehension _ (road_lookups (y :: route))) as [fares|err];
      simpl.
    + split; eauto.
    + split; [by intros [? ?]|]. by intros [_ [? ?]].
  - split; [by intros [? ?]|]. by intros [[? ?] _].
Qed.

(** X2: [get_fare_on_route] returns a fare exactly when [get_road_fare]
    returns one for every two consecutive locations of the route; when it
    raises, it raises what [get_road_fare] raises for two consecutive
    locations of the route. *)
Theorem get_fare_on_route_returns self route :
  ((∃ total, get_fare_on_route self route = Ok total)
   ↔ ∀ i a b, route !! i = Some a → route !! S i = Some b →
              ∃ fare, get_road_fare self a b = Ok fare)
  ∧ ∀ err, get_fare_on_route self route = Raise err →
           ∃ i a b, route !! i = Some a ∧ route !! S i = Some b
                    ∧ get_road_fare self a b = Raise err.
Proof.
  rewrite get_fare_on_route_fares. split.
  - rewrite <- (pairwise_lookup
                  (λ a b, ∃ fare, get_road_fare self a b = Ok fare) route).
    rewrite <- route_fares_priced.
    destruct (route_fares self route) as [fares|err]; simpl.
    + split; eauto.
    + split; by intros [? ?].
  - intros err. unfold route_fares.
    destruct (comprehension _ (road_lookups route)) as [fares|err'] eqn:Hc;
      simpl; [done|].
    intros [= ->].
    apply comprehension_Raise in Hc as ([a b] & Hin & Herr).
    apply list_elem_of_lookup in Hin as [i Hi].
    apply road_lookups_lookup in Hi as [Ha Hb]. by exists i, a, b.
Qed.
End FareFacts.

(** ** What the methods keep *)

Section KeepFacts.
Import Models Map.
Context {Location : Type} `{Countable Location}.
Context {number : Type} `{PyNumber number}.
Implicit Types (self : Map Location number) (route : list Location).
Implicit Types (a b s e location : Location) (fare : number) (fuel : nat).

Lemma register_location_keeps_lookup self location l n :
  _locations self !! l = Some n →
  _locations (register_location self location) !! l = Some n.
Proof.
  intros Hl. unfold register_location.
  destruct (_locations self !! location) eqn:Hfresh; [done|]. simpl.
  rewrite lookup_insert_ne; [done|]. congruence.
Qed.

Lemma register_location_keeps_node self location n (t : Tree.Tree Location) :
  nodes self !! n = Some t → nodes (register_location self location) !! n = Some t.
Proof.
  intros Hn. unfold register_location.
  destruct (_locations self !! location); [done|].
  unfold Tree.new, Tree.store in *. simpl. by apply lookup_app_l_Some.
Qed.

Lemma register_location_keeps_rest self location :
  _roads (register_location self location) = _roads self
  ∧ _root (register_location self location) = _root self.
Proof.
  unfold register_location. by destruct (_locations self !! location).
Qed.

(** [add_road] never touches the registry of locations or the root,
    whether it returns or raises. *)
Lemma add_road_keeps_registry self a b fare :
  _locations (fst (add_road self a b fare)) = _locations self
  ∧ _root (fst (add_road self a b fare)) = _root self
  ∧ length (nodes (fst (add_road self a b fare))) = length (nodes self).
Proof.
  destruct (_locations self !! a) as [na|] eqn:Ha; cycle 1.
  { by rewrite (add_road_unknown_from _ _ _ _ Ha). }
  destruct (_locations self !! b) as [nb|] eqn:Hb; cycle 1.
  { by rewrite (add_road_unknown_to _ _ _ _ _ Ha Hb). }
  rewrite (add_road_registered _ _ _ _ _ _ Ha Hb). simpl.
  by rewrite add_child_length.
Qed.

Lemma add_road_keeps_node self a b fare n (t : Tree.Tree Location) :
  nodes self !! n = Some t →
  ∃ t', nodes (fst (add_road self a b fare)) !! n = Some t'
        ∧ Tree.value t' = Tree.value t.
Proof.
  intros Hn.
  destruct (_locations self !! a) as [na|] eqn:Ha; cycle 1.
  { rewrite (add_road_unknown_from _ _ _ _ Ha). eauto. }
  destruct (_locations self !! b) as [nb|] eqn:Hb; cycle 1.
  { rewrite (add_road_unknown_to _ _ _ _ _ Ha Hb). eauto. }
  rewrite (add_road_registered _ _ _ _ _ _ Ha Hb). simpl.
  by apply add_child_lookup_value.
Qed.

Lemma add_road_keeps_fare self a b fare c d :
  (∃ f, get_road_fare self c d = Ok f) →
  ∃ f, get_road_fare (fst (add_road self a b fare)) c d = Ok f.
Proof.
  intros Hcd.
  destruct (_locations self !! a) as [na|] eqn:Ha; cycle 1.
  { by rewrite (add_road_unknown_from _ _ _ _ Ha). }
  destruct (_locations self !! b) as [nb|] eqn:Hb; cycle 1.
  { by rewrite (add_road_unknown_to _ _ _ _ _ Ha Hb). }
  rewrite (add_road_registered _ _ _ _ _ _ Ha Hb).
  unfold get_road_fare, SymmetricKeyDict.get, SymmetricKeyDict.set,
    SymmetricKeyDict.t in *. simpl.
  rewrite lookup_insert. case_decide; [eauto|done].
Qed.

(** X3: in every map built through its methods the [root] property
    returns a node of the tree, and the location which that node holds is
    registered under this very node. *)
Theorem reachable_root self :
  reachable self →
  ∃ n t, root self = Ok n ∧ nodes self !! n = Some t
         ∧ _locations self !! Tree.value t = Some n.
Proof.
  unfold root.
  induction 1 as [r | self location _ (n & t & Hroot & Hn & Hl)
                 | self a b fare _ (n & t & Hroot & Hn & Hl)].
  - exists 0, {| Tree.value := r; Tree.parent := None; Tree.children := [] |}.
    unfold __init__, register_location. simpl.
    rewrite lookup_empty. simpl. by rewrite lookup_insert_eq.
  - exists n, t.
    destruct (register_location_keeps_rest self location) as [_ ->].
    split_and!; [done| |].
    + by apply register_location_keeps_node.
    + by apply register_location_keeps_lookup.
  - destruct (add_road_keeps_registry self a b fare) as (-> & -> & _).
    destruct (add_road_keeps_node self a b fare n t Hn) as (t' & Hn' & Hv).
    exists n, t'. by rewrite Hv.
Qed.

(** X4: whatever calls follow, the root stays the same node, a registered
    location stays registered under the same node, a node keeps the
    location it holds, and a pair of locations that has a fare keeps having
    one. *)
Theorem later_keeps self self' :
  later self self' →
  _root self' = _root self
  ∧ (∀ l n, _locations self !! l = Some n → _locations self' !! l = Some n)
  ∧ (∀ n t, nodes self !! n = Some t →
            ∃ t', nodes self' !! n = Some t' ∧ Tree.value t' = Tree.value t)
  ∧ (∀ c d, (∃ f, get_road_fare self c d = Ok f) →
            ∃ f, get_road_fare self' c d = Ok f).
Proof.
  induction 1 as [| self' location _ (Hroot & Hloc & Hnode & Hfare)
                 | self' a b fare _ (Hroot & Hloc & Hnode & Hfare)].
  - split_and!; eauto.
  - destruct (register_location_keeps_rest self' location) as [Hroads ->].
    split_and!; [done| | |].
    + intros l n Hl. by apply register_location_keeps_lookup, Hloc.
    + intros n t (t' & Hn & Hv)%Hnode. exists t'. split; [|done].
      by apply register_location_keeps_node.
    + intros c d Hcd%Hfare. unfold get_road_fare in *. by rewrite Hroads.
  - destruct (add_road_keeps_registry self' a b fare) as (-> & -> & _).
    split_and!; [done..| |].
    + intros n t (t' & Hn & Hv)%Hnode.
      destruct (add_road_keeps_node self' a b fare n t' Hn) as (t'' & Hn' & Hv').
      exists t''. split; [done|congruence].
    + intros c d Hcd%Hfare. by apply add_road_keeps_fare.
Qed.

(** X5: a map built through its methods has exactly one node for each
    registered location: as many nodes as registered locations, and the
    node a location is registered under is the only one that holds it. *)
Theorem reachable_one_node_per_location self :
  reachable self →
  size (_locations self) = length (nodes self)
  ∧ ∀ location n, _locations self !! location = Some n →
      ∀ k t, nodes self !! k = Some t → (Tree.value t = location ↔ k = n).
Proof.
  intros Hreach. split.
  - induction Hreach as [r | self location _ IH | self a b fare _ IH].
    + unfold __init__, register_location. simpl.
      rewrite lookup_empty. simpl. by rewrite insert_empty, map_size_singleton.
    + unfold register_location.
      destruct (_locations self !! location) eqn:Hfresh; [done|].
      unfold Tree.new, Tree.store in *. simpl.
      rewrite map_size_insert_None by done. rewrite length_app. simpl. lia.
    + by destruct (add_road_keeps_registry self a b fare) as (-> & _ & ->).
  - intros location n Hn.
    by apply consistent_one_node; [apply reachable_consistent|].
Qed.
End KeepFacts.

(** ** Routes and trips *)

Section StoreFacts.
Context {L T : Type}.
Implicit Types (h ext : Tree.store T) (n : nat).

(** In a closed store the walk to the root never leaves the store, so
    nodes allocated later do not change it. *)
Lemma path_to_root_app fuel h ext n :
  Tree.closed h → is_Some (h !! n) →
  Tree.path_to_root (L:=L) fuel (h ++ ext) n = Tree.path_to_root fuel h n.
Proof.
  intros Hclosed. revert n.
  induction fuel as [|fuel IH]; intros n [node Hn]; simpl; [done|].
  unfold Tree.store in *. rewrite (lookup_app_l_Some _ _ _ _ Hn), Hn.
  destruct (Tree.parent node) as [p|] eqn:Hp; [|done].
  by rewrite IH by eauto.
Qed.

Lemma find_route_app fuel h ext start end_ :
  Tree.closed h → is_Some (h !! start) → is_Some (h !! end_) →
  Route.find_route (L:=L) fuel (h ++ ext) start end_
  = Route.find_route fuel h start end_.
Proof.
  intros Hclosed Hs He. unfold Route.find_route, Route.route_over_ancestor.
  by rewrite !path_to_root_app.
Qed.

Lemma comprehension_ext {A B} (f g : A → result L B) (xs : list A) :
  Forall (λ x, f x = g x) xs → comprehension f xs = comprehension g xs.
Proof.
  induction 1 as [|x xs Hx _ IH]; simpl; [done|]. by rewrite Hx, IH.
Qed.

Lemma comprehension_total {A B} (f : A → result L B) (xs : list A) :
  Forall (λ x, ∃ z, f x = Ok z) xs → ∃ zs, comprehension f xs = Ok zs.
Proof.
  induction 1 as [|x xs [z Hx] _ [zs IH]]; simpl; [by eexists|].
  rewrite Hx, IH. simpl. by eexists.
Qed.

Lemma pairwise_Forall2 {A B} (R : A → A → Prop) (S : B → B → Prop)
    (P : A → B → Prop) (xs : list A) (ys : list B) :
  (∀ x x' y y', R x x' → P x y → P x' y' → S y y') →
  Forall2 P xs ys → pairwise R xs → pairwise S ys.
Proof.
  intros HS. induction 1 as [|x y xs ys Hxy Hrest IH]; [done|].
  destruct Hrest as [|x' y' xs ys Hxy' Hrest]; [done|].
  intros [HR Hpair]. split; [by eapply HS|by apply IH].
Qed.
End StoreFacts.

Section TripFacts.
Import Models Map.
Context {Location : Type} `{Countable Location}.
Context {number : Type} `{PyNumber number}.
Implicit Types (self : Map Location number) (route : list Location).
Implicit Types (a b s e location : Location) (fare : number) (fuel : nat).

Lemma consistent_closed self : consistent self → Tree.closed (nodes self).
Proof.
  intros [_ _ Hpar _ _] n node p Hn Hp.
  destruct (Hpar _ _ _ Hn Hp) as (tp & Htp & _). eauto.
Qed.

(** What [_find_route] has done when it returns a route. *)
Lemma map_find_route_Ok fuel self s e route :
  _find_route fuel self s e = Some (Ok route) →
  ∃ ns ne nroute,
    _locations self !! s = Some ns ∧ _locations self !! e = Some ne
    ∧ Route.find_route (L:=Location) fuel (nodes self) ns ne = Some (Ok nroute)
    ∧ Forall2 (λ n l, node_value self n = Ok l) nroute route.
Proof.
  unfold _find_route, locations_getitem.
  destruct (_locations self !! s) as [ns|]; [|done].
  destruct (_locations self !! e) as [ne|]; [|done]. simpl.
  destruct (Route.find_route fuel (nodes self) ns ne) as [[nroute|?]|] eqn:Hr;
    [|done..]. simpl.
  intros [= Hc]. apply comprehension_Ok in Hc. by exists ns, ne, nroute.
Qed.

Lemma consistent_edge_priced self x x' y y' :
  consistent self →
  Tree.child_of (nodes self) x x' ∨ Tree.child_of (nodes self) x' x →
  node_value self x = Ok y → node_value self x' = Ok y' →
  ∃ fare, get_road_fare self y y' = Ok fare.
Proof.
  intros [_ _ Hpar _ _] Hedge Hy Hy'. unfold node_value in *.
  destruct (nodes self !! x) as [tx|] eqn:Hx; [|done].
  destruct (nodes self !! x') as [tx'|] eqn:Hx'; [|done].
  injection Hy as <-. injection Hy' as <-.
  unfold get_road_fare, SymmetricKeyDict.get.
  destruct Hedge as [(node & Hn & Hp)|(node & Hn & Hp)].
  - assert (node = tx) as -> by congruence.
    destruct (Hpar _ _ _ Hx Hp) as (tp & Htp & [fare Hfare]).
    assert (tp = tx') as -> by congruence.
    rewrite (symmetric_key (Tree.value tx) (Tree.value tx')), Hfare. eauto.
  - assert (node = tx') as -> by congruence.
    destruct (Hpar _ _ _ Hx' Hp) as (tp & Htp & [fare Hfare]).
    assert (tp = tx) as -> by congruence.
    rewrite Hfare. eauto.
Qed.

(** On a map built through its methods every route that [_find_route]
    returns has a fare. *)
Lemma reachable_route_priced fuel self s e route :
  reachable self → _find_route fuel self s e = Some (Ok route) →
  ∃ fare, get_fare_on_route self route = Ok fare.
Proof.
  intros Hcons%reachable_consistent
    (ns & ne & nroute & Hs & _ & Hroute & Hvalues)%map_find_route_Ok.
  destruct (consistent_locations _ Hcons _ _ Hs) as (ts & Hts & _).
  apply find_route_adjacent in Hroute as [Hadj _]; [|by eauto].
  assert (∃ fares, route_fares self route = Ok fares) as [fares Hfares].
  { apply route_fares_priced.
    eapply pairwise_Forall2; [|exact Hvalues|exact Hadj].
    intros x x' y y'. by apply consistent_edge_priced. }
  rewrite get_fare_on_route_fares, Hfares. simpl. eauto.
Qed.

(** X6: on a map built through its methods [make_trip] never fails on the
    fares: whenever [_find_route] returns a route, [make_trip] returns this
    route with the fare [get_fare_on_route] returns for it. *)
Theorem make_trip_route_priced fuel self s e route :
  reachable self → _find_route fuel self s e = Some (Ok route) →
  ∃ fare, get_fare_on_route self route = Ok fare
          ∧ make_trip fuel self s e = Some (Ok (route, fare)).
Proof.
  intros Hreach Hroute.
  destruct (reachable_route_priced _ _ _ _ _ Hreach Hroute) as [fare Hfare].
  exists fare. split; [done|].
  unfold make_trip. rewrite Hroute. simpl. by rewrite Hfare.
Qed.

(** X7: on a map built through its methods a route that [_find_route]
    returns starts at [loc_start] and ends at [loc_end]. *)
Theorem find_route_endpoints fuel self s e route :
  reachable self → _find_route fuel self s e = Some (Ok route) →
  head route = Some s ∧ last route = Some e.
Proof.
  intros [Hloc _ _ _ _]%reachable_consistent
    (ns & ne & nroute & Hs & He & Hroute & Hvalues)%map_find_route_Ok.
  apply find_route_start in Hroute as [Hhead Hlast].
  destruct (Hloc _ _ Hs) as (ts & Hts & Hvs).
  destruct (Hloc _ _ He) as (te & Hte & Hve).
  rewrite head_lookup in Hhead. rewrite last_lookup in Hlast.
  rewrite head_lookup, last_lookup.
  rewrite <- (Forall2_length _ _ _ Hvalues).
  split.
  - destruct (Forall2_lookup_l _ _ _ _ _ Hvalues Hhead) as (l & -> & Hl).
    unfold node_value in Hl. rewrite Hts in Hl. congruence.
  - destruct (Forall2_lookup_l _ _ _ _ _ Hvalues Hlast) as (l & -> & Hl).
    unfold node_value in Hl. rewrite Hte in Hl. congruence.
Qed.

(** X8: the route back is the route read backwards: when [_find_route]
    returns a route from [loc_start] to [loc_end], it returns the reversed
    route from [loc_end] to [loc_start]. *)
Theorem find_route_reverse fuel self s e route :
  _find_route fuel self s e = Some (Ok route) →
  _find_route fuel self e s = Some (Ok (reverse route)).
Proof.
  intros (ns & ne & nroute & Hs & He & Hroute & Hvalues)%map_find_route_Ok.
  unfold _find_route.
  rewrite (locations_getitem_Some _ _ _ Hs), (locations_getitem_Some _ _ _ He).
  simpl. rewrite (find_route_sym _ _ _ _ _ Hroute). simpl.
  f_equal. apply comprehension_Ok. by apply Forall2_reverse.
Qed.
(** X9: registering a location changes no trip between locations that
    were registered before: on a map built through its methods [make_trip]
    returns or raises after the call what it did before. *)
Theorem register_location_keeps_trips fuel self location s e :
  reachable self → registered self s → registered self e →
  make_trip fuel (register_location self location) s e
  = make_trip fuel self s e.
Proof.
  intros Hcons%reachable_consistent [ns Hs] [ne He].
  pose proof (consistent_closed _ Hcons) as Hclosed.
  destruct Hcons as [Hloc _ _ _ _].
  unfold register_location.
  destruct (_locations self !! location) as [?|] eqn:Hfresh; [done|].
  unfold Tree.new. simpl.
  set (self' := {| _roads := _roads self; _root := _root self;
                   _locations := <[location:=length (nodes self)]> (_locations self);
                   nodes := nodes self ++ [_] |}).
  assert (_find_route fuel self' s e = _find_route fuel self s e) as Hroute.
  { unfold _find_route, locations_getitem. subst self'. simpl.
    rewrite !lookup_insert_ne by congruence. rewrite Hs, He. simpl.
    destruct (Hloc _ _ Hs) as (ts & Hts & _).
    destruct (Hloc _ _ He) as (te & Hte & _).
    rewrite find_route_app by eauto.
    destruct (Route.find_route fuel (nodes self) ns ne) as [[nroute|?]|] eqn:Hr;
      [|done..]. simpl. f_equal.
    apply find_route_adjacent in Hr as [_ Hin]; [|by eauto].
    apply comprehension_ext. eapply Forall_impl; [exact Hin|].
    intros n [t Ht]. unfold node_value, Tree.store in *. simpl.
    by rewrite (lookup_app_l_Some _ _ _ _ Ht), Ht. }
  unfold make_trip. rewrite Hroute.
  by destruct (_find_route fuel self s e) as [[route|?]|].
Qed.

Lemma get_road_fare_sym self a b :
  get_road_fare self a b = get_road_fare self b a.
Proof.
  unfold get_road_fare, SymmetricKeyDict.get. by rewrite (symmetric_key a b).
Qed.

Lemma get_road_fare_raises self a b err :
  get_road_fare self a b = Raise err → err = KeyNotFound.
Proof.
  unfold get_road_fare, SymmetricKeyDict.get.
  destruct (_roads self !! _); [done|]. by intros [= <-].
Qed.

Lemma road_lookups_snoc (xs : list Location) a b :
  road_lookups ((xs ++ [a]) ++ [b]) = road_lookups (xs ++ [a]) ++ [(a, b)].
Proof.
  induction xs as [|x xs IH]; [done|].
  destruct xs as [|y xs]; [done|].
  simpl app in *. rewrite !road_lookups_cons_cons. simpl. by rewrite IH.
Qed.

(** The pairs looked up on the reversed route are the pairs of the route,
    each turned around, in reverse order. *)
Lemma road_lookups_reverse route :
  road_lookups (reverse route) = reverse (prod_swap <$> road_lookups route).
Proof.
  induction route as [|x route IH]; [done|].
  destruct route as [|y route]; [done|].
  rewrite road_lookups_cons_cons, fmap_cons, (reverse_cons (_ <$> _)).
  rewrite <- IH, reverse_cons, (reverse_cons route).
  by rewrite road_lookups_snoc, <- reverse_cons.
Qed.

Lemma route_fares_reverse_Ok self route (fares : list number) :
  route_fares self route = Ok fares →
  route_fares self (reverse route) = Ok (reverse fares).
Proof.
  unfold route_fares. rewrite !comprehension_Ok, road_lookups_reverse.
  intros Hall. apply Forall2_reverse, Forall2_fmap_l.
  eapply Forall2_impl; [exact Hall|].
  intros [a b] fare. simpl. fold (get_road_fare self a b).
  fold (get_road_fare self b a). by rewrite (get_road_fare_sym self b a).
Qed.

Lemma route_fares_raises self route err :
  route_fares self route = Raise err → err = KeyNotFound.
Proof.
  unfold route_fares.
  intros ([a b] & _ & Herr)%comprehension_Raise.
  by apply (get_road_fare_raises self a b).
Qed.

Lemma py_sum_shift `{!ExactNumber number} (xs : list number) (z x : number) :
  fold_left py_add xs (py_add z x) = py_add (fold_left py_add xs z) x.
Proof.
  revert z. induction xs as [|y xs IH]; intros z; simpl; [done|].
  rewrite <- IH. f_equal.
  by rewrite <- !py_add_assoc, (py_add_comm x y).
Qed.

Lemma py_sum_reverse `{!ExactNumber number} (xs : list number) :
  py_sum (reverse xs) = py_sum xs.
Proof.
  unfold py_sum. generalize (py_zero (N:=number)).
  induction xs as [|x xs IH]; intros z; [done|].
  rewrite reverse_cons, fold_left_app. simpl.
  by rewrite IH, py_sum_shift.
Qed.

(** X10: with fares that add up exactly, such as integers, the way back
    costs what the way out costs: [get_fare_on_route] returns or raises the
    same on a route and on the reversed route. *)
Theorem get_fare_on_route_reverse self route :
  ExactNumber number →
  get_fare_on_route self (reverse route) = get_fare_on_route self route.
Proof.
  intros Hexact. rewrite !get_fare_on_route_fares.
  destruct (route_fares self route) as [fares|err] eqn:Hout.
  - rewrite (route_fares_reverse_Ok _ _ _ Hout). simpl.
    by rewrite py_sum_reverse.
  - apply route_fares_raises in Hout as Herr. subst err.
    destruct (route_fares self (reverse route)) as [fares|err] eqn:Hback.
    + apply route_fares_reverse_Ok in Hback.
      rewrite reverse_involutive in Hback. congruence.
    + by apply route_fares_raises in Hback as ->.
Qed.

(** X11: [add_road(A, B, f)] changes the fare of no other pair of
    locations: for every pair that is not [A] and [B] in one of the two
    orders, [get_road_fare] returns or raises afterwards what it did
    before. *)
Theorem add_road_keeps_other_fares self a b fare c d :
  ¬ (c = a ∧ d = b) → ¬ (c = b ∧ d = a) →
  get_road_fare (fst (add_road self a b fare)) c d = get_road_fare self c d.
Proof.
  intros Hab Hba.
  destruct (_locations self !! a) as [na|] eqn:Ha; cycle 1.
  { by rewrite (add_road_unknown_from _ _ _ _ Ha). }
  destruct (_locations self !! b) as [nb|] eqn:Hb; cycle 1.
  { by rewrite (add_road_unknown_to _ _ _ _ _ Ha Hb). }
  rewrite (add_road_registered _ _ _ _ _ _ Ha Hb).
  unfold get_road_fare, SymmetricKeyDict.get, SymmetricKeyDict.set,
    SymmetricKeyDict.t in *. simpl.
  rewrite lookup_insert_ne; [done|].
  intros Hkey.
  assert (∀ x y : Location, x ∈ ({[x; y]} : gset Location)) as Hleft
    by (intros; apply elem_of_union_l; by apply elem_of_singleton).
  assert (∀ x y : Location, y ∈ ({[x; y]} : gset Location)) as Hright
    by (intros; apply elem_of_union_r; by apply elem_of_singleton).
  pose proof (Hleft c d) as Hc. pose proof (Hright c d) as Hd.
  pose proof (Hleft a b) as Ha'. pose proof (Hright a b) as Hb'.
  rewrite <- Hkey in Hc, Hd. rewrite Hkey in Ha', Hb'.
  apply elem_of_union in Hc as [Hc|Hc], Hd as [Hd|Hd], Ha' as [Ha'|Ha'],
    Hb' as [Hb'|Hb']; apply elem_of_singleton in Hc, Hd, Ha', Hb'; subst;
    tauto.
Qed.

(** X12: on a map built as the docstring of [add_road] asks, [make_trip]
    between two registered locations always comes to an end, given enough
    fuel: it returns a trip, or the two locations hang under different
    roots. *)
Theorem tree_built_make_trip_ends self s e :
  tree_built self → registered self s → registered self e →
  ∃ fuel0, ∀ fuel, fuel0 ≤ fuel →
    (∃ trip, make_trip fuel self s e = Some (Ok trip))
    ∨ make_trip fuel self s e = Some (Raise DisconnectedNodes).
Proof.
  intros Hbuilt [ns Hs] [ne He].
  pose proof (tree_built_reachable _ Hbuilt) as Hreach.
  pose proof (reachable_consistent _ Hreach) as Hcons.
  destruct (consistent_locations _ Hcons _ _ Hs) as (ts & Hts & _).
  destruct (consistent_locations _ Hcons _ _ He) as (te & Hte & _).
  destruct (tree_built_ancestors _ Hbuilt _ _ Hts) as [up Hup].
  destruct (tree_built_ancestors _ Hbuilt _ _ Hte) as [down Hdown].
  exists (length up `max` length down). intros fuel Hfuel.
  destruct (_find_route fuel self s e) as [[route|err]|] eqn:Hroute.
  - left. destruct (reachable_route_priced _ _ _ _ _ Hreach Hroute) as [fare Hf].
    exists (route, fare). unfold make_trip. rewrite Hroute. simpl. by rewrite Hf.
  - right. unfold make_trip. rewrite Hroute. simpl. f_equal. f_equal.
    unfold _find_route in Hroute.
    rewrite (locations_getitem_Some _ _ _ Hs), (locations_getitem_Some _ _ _ He)
      in Hroute. simpl in Hroute.
    destruct (Route.find_route fuel (nodes self) ns ne) as [[nroute|err']|] eqn:Hr;
      simpl in Hroute; [| |done].
    + exfalso. apply find_route_adjacent in Hr as [_ Hin]; [|by eauto].
      destruct (comprehension_total (L:=Location) (node_value self) nroute)
        as [zs Hzs]; [|congruence].
      eapply Forall_impl; [exact Hin|]. intros n [t Ht].
      unfold node_value. rewrite Ht. eauto.
    + injection Hroute as <-. unfold Route.find_route in Hr.
      case_decide; [done|]. unfold Route.route_over_ancestor in Hr.
      rewrite (path_to_root_ancestors _ _ _ Hup fuel) in Hr by lia.
      rewrite (path_to_root_ancestors _ _ _ Hdown fuel) in Hr by lia.
      by destruct (Route.diverge None (reverse up) (reverse down))
        as [[[?|] ?] ?]; simplify_eq.
  - exfalso. unfold _find_route in Hroute.
    rewrite (locations_getitem_Some _ _ _ Hs), (locations_getitem_Some _ _ _ He)
      in Hroute. simpl in Hroute.
    unfold Route.find_route in Hroute.
    case_decide; [done|]. unfold Route.route_over_ancestor in Hroute.
    rewrite (path_to_root_ancestors _ _ _ Hup fuel) in Hroute by lia.
    rewrite (path_to_root_ancestors _ _ _ Hdown fuel) in Hroute by lia.
    by destruct (Route.diverge None (reverse up) (reverse down))
      as [[[?|] ?] ?].
Qed.
Lemma init_unfold (r : Location) :
  __init__ (number:=number) r
  = {| _roads := SymmetricKeyDict.empty; _root := Some 0;
       _locations := {[r := 0]};
       nodes := [{| Tree.value := r; Tree.parent := None; Tree.children := [] |}] |}.
Proof.
  unfold __init__, register_location. simpl. rewrite lookup_empty. simpl.
  by rewrite lookup_insert_eq, insert_empty.
Qed.

(** X13: a map just constructed knows its root alone: the root is the only
    registered location, no pair of locations has a fare, and the trip from
    the root to itself is the root alone at fare [0]. *)
Theorem init_knows_root_alone (r : Location) :
  (∀ l, registered (__init__ (number:=number) r) l ↔ l = r)
  ∧ (∀ a b, get_road_fare (__init__ (number:=number) r) a b = Raise KeyNotFound)
  ∧ (∀ fuel, make_trip (S fuel) (__init__ (number:=number) r) r r
             = Some (Ok ([r], py_zero))).
Proof.
  rewrite init_unfold. split_and!.
  - intros l. unfold registered. simpl. rewrite lookup_singleton_is_Some.
    naive_solver.
  - intros a b.
    unfold get_road_fare, SymmetricKeyDict.get, SymmetricKeyDict.empty,
      SymmetricKeyDict.t.
    simpl. by rewrite lookup_empty.
  - intros fuel. unfold make_trip, _find_route, locations_getitem. simpl.
    rewrite lookup_singleton_eq. simpl.
    reflexivity.
Qed.

Lemma consistent_roads_have_edges_add_road self a b fare :
  consistent self → roads_have_edges self →
  roads_have_edges (fst (add_road self a b fare)).
Proof.
  intros [Hloc _ _ _ _] Hedges.
  destruct (_locations self !! a) as [na|] eqn:Ha; cycle 1.
  { by rewrite (add_road_unknown_from _ _ _ _ Ha). }
  destruct (_locations self !! b) as [nb|] eqn:Hb; cycle 1.
  { by rewrite (add_road_unknown_to _ _ _ _ _ Ha Hb). }
  rewrite (add_road_registered _ _ _ _ _ _ Ha Hb).
  destruct (Hloc _ _ Ha) as (ta & Hta & Hva).
  destruct (Hloc _ _ Hb) as (tb & Htb & Hvb).
  intros ends. simpl.
  unfold SymmetricKeyDict.set, SymmetricKeyDict.t in *.
  rewrite lookup_insert. case_decide as Hkey.
  - intros _. subst ends.
    exists na, nb. rewrite !add_child_lookup, Hta, Htb. simpl.
    eexists _, _. split_and!; [done..| |by rewrite Hva, Hvb]. simpl.
    rewrite decide_True by done. apply elem_of_app. right.
    by apply list_elem_of_singleton.
  - intros (p & c & tp & tc & Hp & Hc & Hin & ->)%Hedges.
    exists p, c. rewrite !add_child_lookup, Hp, Hc. simpl.
    eexists _, _. split_and!; [done..| |done]. simpl.
    case_decide; [|done]. apply elem_of_app. by left.
Qed.

Lemma reachable_roads_have_edges self : reachable self → roads_have_edges self.
Proof.
  induction 1 as [r | self location Hreach IH | self a b fare Hreach IH].
  - rewrite init_unfold. intros ends. simpl.
    unfold SymmetricKeyDict.empty, SymmetricKeyDict.t.
    rewrite lookup_empty. by intros [? ?].
  - intros ends. destruct (register_location_keeps_rest self location) as [-> _].
    intros (p & c & tp & tc & Hp & Hc & Hin & ->)%IH.
    exists p, c, tp, tc. split_and!; [..|done|done];
      by apply register_location_keeps_node.
  - apply consistent_roads_have_edges_add_road; [|done].
    by apply reachable_consistent.
Qed.

(** X15: on a map built through its methods there is no fare without a
    road in the tree: when [get_road_fare] returns a fare for two
    locations, one of them is held by a node that lists the node of the
    other among its children. *)
Theorem fare_has_edge self a b fare :
  reachable self → get_road_fare self a b = Ok fare →
  tree_edge self a b ∨ tree_edge self b a.
Proof.
  intros Hedges%reachable_roads_have_edges.
  unfold get_road_fare, SymmetricKeyDict.get.
  destruct (_roads self !! ({[a; b]} : gset Location)) as [f|] eqn:Hf; [|done].
  intros _.
  destruct (Hedges {[a; b]}) as (p & c & tp & tc & Hp & Hc & Hin & Hkey); [eauto|].
  assert (a ∈ ({[a; b]} : gset Location)) as Ha
    by (apply elem_of_union_l; by apply elem_of_singleton).
  assert (Tree.value tp ∈ ({[Tree.value tp; Tree.value tc]} : gset Location)) as Htp
    by (apply elem_of_union_l; by apply elem_of_singleton).
  assert (b ∈ ({[a; b]} : gset Location)) as Hb
    by (apply elem_of_union_r; by apply elem_of_singleton).
  assert (Tree.value tc ∈ ({[Tree.value tp; Tree.value tc]} : gset Location)) as Htc
    by (apply elem_of_union_r; by apply elem_of_singleton).
  rewrite Hkey in Ha, Hb. rewrite <- Hkey in Htp, Htc.
  assert ((Tree.value tp = a ∧ Tree.value tc = b)
          ∨ (Tree.value tp = b ∧ Tree.value tc = a)) as [[Hva Hvb]|[Hvb Hva]].
  { apply elem_of_union in Ha as [Ha|Ha], Hb as [Hb|Hb], Htp as [Htp|Htp],
      Htc as [Htc|Htc]; apply elem_of_singleton in Ha, Hb, Htp, Htc;
      subst; auto; left; split; congruence. }
  - left. exists p, c, tp, tc. auto 10.
  - right. exists p, c, tp, tc. auto 10.
Qed.
End TripFacts.

(** ** Place objects as dictionary keys *)

Section PlaceDictFacts.
Import Models.

Lemma key_matches_is (k probe : Place) : key_matches k probe = Place_is k probe.
Proof.
  unfold key_matches, Place_is, Place__hash__.
  by destruct (Place_id k =? Place_id probe).
Qed.

Lemma Place_is_trans_false (p q k : Place) :
  Place_is k p = true → Place_is p q = Place_is k q.
Proof.
  unfold Place_is. intros Hkp%Nat.eqb_eq. by rewrite Hkp.
Qed.

(** X16: a dictionary with [Place] keys treats them by identity: after
    [d[p] = v], looking up [q] gives [v] when [q] is the object [p], and
    what it gave before otherwise, whatever the names of the two are. *)
Theorem Place_dict_by_identity {V} (d : list (Place * V)) (p q : Place) (v : V) :
  dict_getitem (dict_setitem d p v) q
  = if Place_is p q then Some v else dict_getitem d q.
Proof.
  induction d as [|[k w] d IH]; simpl.
  - by rewrite key_matches_is.
  - rewrite !key_matches_is.
    destruct (Place_is k p) eqn:Hkp; simpl; rewrite !key_matches_is.
    + rewrite (Place_is_trans_false p q k Hkp). by destruct (Place_is k q).
    + destruct (Place_is k q) eqn:Hkq; [|done].
      destruct (Place_is p q) eqn:Hpq; [|done].
      unfold Place_is in *.
      apply Nat.eqb_eq in Hkq, Hpq. apply Nat.eqb_neq in Hkp. congruence.
Qed.
End PlaceDictFacts.

(** ** The further properties on the example maps *)

Section MoreExampleFacts.
Import Models Map Examples.

Local Ltac by_evaluation := vm_compute; reflexivity.

Lemma city_map_later : later registered_map city_map.
Proof.
  exact (later_add_road _ _ 1 2 5%Z (later_add_road _ _ 0 1 10%Z (later_now _))).
Qed.

Lemma city_map_route : _find_route 3 city_map 0 2 = Some (Ok [0; 1; 2]).
Proof. by_evaluation. Qed.

Lemma reachable_root_witness :
  reachable city_map
  ∧ ∃ n t, root city_map = Ok n ∧ nodes city_map !! n = Some t
           ∧ _locations city_map !! Tree.value t = Some n.
Proof.
  split; [exact city_map_reachable|].
  exact (reachable_root city_map city_map_reachable).
Defined.

Lemma later_keeps_witness :
  later registered_map city_map
  ∧ _root city_map = _root registered_map
  ∧ (∀ l n, _locations registered_map !! l = Some n →
            _locations city_map !! l = Some n)
  ∧ (∀ n t, nodes registered_map !! n = Some t →
            ∃ t', nodes city_map !! n = Some t' ∧ Tree.value t' = Tree.value t)
  ∧ (∀ c d, (∃ f, get_road_fare registered_map c d = Ok f) →
            ∃ f, get_road_fare city_map c d = Ok f).
Proof.
  split; [exact city_map_later|].
  exact (later_keeps registered_map city_map city_map_later).
Defined.

Lemma reachable_one_node_per_location_witness :
  reachable city_map
  ∧ size (_locations city_map) = length (nodes city_map)
  ∧ ∀ location n, _locations city_map !! location = Some n →
      ∀ k t, nodes city_map !! k = Some t → (Tree.value t = location ↔ k = n).
Proof.
  split; [exact city_map_reachable|].
  exact (reachable_one_node_per_location city_map city_map_reachable).
Defined.

Lemma make_trip_route_priced_witness :
  reachable city_map
  ∧ _find_route 3 city_map 0 2 = Some (Ok [0; 1; 2])
  ∧ ∃ fare, get_fare_on_route city_map [0; 1; 2] = Ok fare
            ∧ make_trip 3 city_map 0 2 = Some (Ok ([0; 1; 2], fare)).
Proof.
  split; [exact city_map_reachable|]. split; [exact city_map_route|].
  exact (make_trip_route_priced 3 city_map 0 2 [0; 1; 2]
           city_map_reachable city_map_route).
Defined.

Lemma find_route_endpoints_witness :
  reachable city_map
  ∧ _find_route 3 city_map 0 2 = Some (Ok [0; 1; 2])
  ∧ head [0; 1; 2] = Some 0 ∧ last [0; 1; 2] = Some 2.
Proof.
  split; [exact city_map_reachable|]. split; [exact city_map_route|].
  exact (find_route_endpoints 3 city_map 0 2 [0; 1; 2]
           city_map_reachable city_map_route).
Defined.

Lemma find_route_reverse_witness :
  _find_route 3 city_map 0 2 = Some (Ok [0; 1; 2])
  ∧ _find_route 3 city_map 2 0 = Some (Ok (reverse [0; 1; 2])).
Proof.
  split; [exact city_map_route|].
  exact (find_route_reverse 3 city_map 0 2 [0; 1; 2] city_map_route).
Defined.

Lemma register_location_keeps_trips_witness :
  reachable city_map ∧ registered city_map 0 ∧ registered city_map 2
  ∧ make_trip 3 (register_location city_map 3) 0 2 = make_trip 3 city_map 0 2.
Proof.
  assert (registered city_map 0) as H0 by (exists 0; by_evaluation).
  assert (registered city_map 2) as H2 by (exists 2; by_evaluation).
  split; [exact city_map_reachable|]. split; [exact H0|]. split; [exact H2|].
  exact (register_location_keeps_trips 3 city_map 3 0 2 city_map_reachable H0 H2).
Defined.

Lemma get_fare_on_route_reverse_witness :
  ExactNumber Z
  ∧ get_fare_on_route city_map (reverse [0; 1; 2])
    = get_fare_on_route city_map [0; 1; 2].
Proof.
  split; [exact Z_ExactNumber|].
  exact (get_fare_on_route_reverse city_map [0; 1; 2] Z_ExactNumber).
Defined.

Lemma add_road_keeps_other_fares_witness :
  ¬ (0 = 1 ∧ 1 = 2) ∧ ¬ (0 = 2 ∧ 1 = 1)
  ∧ get_road_fare (fst (add_road one_road_map 1 2 5%Z)) 0 1
    = get_road_fare one_road_map 0 1.
Proof.
  assert (¬ (0 = 1 ∧ 1 = 2)) as Hab by lia.
  assert (¬ (0 = 2 ∧ 1 = 1)) as Hba by lia.
  split; [exact Hab|]. split; [exact Hba|].
  exact (add_road_keeps_other_fares one_road_map 1 2 5%Z 0 1 Hab Hba).
Defined.

Lemma tree_built_make_trip_ends_witness :
  tree_built city_map ∧ registered city_map 0 ∧ registered city_map 2
  ∧ ∃ fuel0, ∀ fuel, fuel0 ≤ fuel →
      (∃ trip, make_trip fuel city_map 0 2 = Some (Ok trip))
      ∨ make_trip fuel city_map 0 2 = Some (Raise DisconnectedNodes).
Proof.
  assert (registered city_map 0) as H0 by (exists 0; by_evaluation).
  assert (registered city_map 2) as H2 by (exists 2; by_evaluation).
  split; [exact city_map_tree_built|]. split; [exact H0|]. split; [exact H2|].
  exact (tree_built_make_trip_ends city_map 0 2 city_map_tree_built H0 H2).
Defined.

Lemma tree_built_find_route_to_itself_witness :
  tree_built city_map ∧ registered city_map 2
  ∧ ∃ fuel0, ∀ fuel, fuel0 ≤ fuel →
      _find_route fuel city_map 2 2 = Some (Ok [2]).
Proof.
  assert (registered city_map 2) as H2 by (exists 2; by_evaluation).
  split; [exact city_map_tree_built|]. split; [exact H2|].
  exact (tree_built_find_route_to_itself city_map 2 city_map_tree_built H2).
Defined.

Lemma fare_has_edge_witness :
  reachable city_map ∧ get_road_fare city_map 1 0 = Ok 10%Z
  ∧ (tree_edge city_map 1 0 ∨ tree_edge city_map 0 1).
Proof.
  assert (get_road_fare city_map 1 0 = Ok 10%Z) as Hfare by by_evaluation.
  split; [exact city_map_reachable|]. split; [exact Hfare|].
  exact (fare_has_edge city_map 1 0 10%Z city_map_reachable Hfare).
Defined.
End MoreExampleFacts.
